(** * Crossword CSP solver ([crossword/generate.py]): a shallow embedding

    The class [CrosswordCreator] keeps one mutable dictionary,
    [self.domains], from variables to sets of candidate words, and passes one
    mutable dictionary, [assignment], through the recursive search.  Both are
    modelled by explicit state passing.

    - A Python [set] of words is a duplicate-free [list string] that records
      the iteration order of the set.  [set.remove] keeps the relative order
      of what remains, so removal is a filter.  The order is observable:
      [sorted] is stable and [min] keeps the first minimum, so ties are
      settled by it.
    - A Python [dict] used as [assignment] is an association list in insertion
      order.
    - [self.domains] is a [gmap] from variables to word lists.
    - Python exceptions ([KeyError], [IndexError], [ValueError]) are values
      of the result type [Res]. *)

From stdpp Require Import gmap strings list fin_maps.
From Stdlib Require Import ZArith Lia Sorted.

Set Default Proof Using "Type".
Local Open Scope nat_scope.

(** ** Results of fallible code *)

Inductive Exception := KeyError | IndexError | ValueError.

Inductive Res (A : Type) : Type :=
  | Ok (a : A)
  | Raise (e : Exception)
  | OutOfFuel.
Arguments Ok {A} a.
Arguments Raise {A} e.
Arguments OutOfFuel {A}.

#[global] Instance Res_ret : MRet Res := λ A a, Ok a.
#[global] Instance Res_bind : MBind Res := λ A B f m,
  match m with
  | Ok a => f a
  | Raise e => Raise e
  | OutOfFuel => OutOfFuel
  end.

(** ** Data model *)

Inductive Direction := ACROSS | DOWN.

(** Modelled from the spec: the class [Variable] of [crossword.py] is not
    part of the sources at hand.  A variable is a slot with an origin cell
    (row [var_i], column [var_j]), an orientation and a length; two variables
    are equal when all four agree. *)
Record Var := mkVar {
  var_i : nat;
  var_j : nat;
  var_direction : Direction;
  var_length : nat
}.

#[global] Instance Direction_eq_dec : EqDecision Direction.
Proof. solve_decision. Defined.

#[global] Instance Var_eq_dec : EqDecision Var.
Proof. solve_decision. Defined.

Definition Var_to_tuple (v : Var) : nat * nat * bool * nat :=
  (var_i v, var_j v,
   match var_direction v with ACROSS => true | DOWN => false end,
   var_length v).

Definition Var_of_tuple (t : nat * nat * bool * nat) : Var :=
  let '(i, j, d, n) := t in
  mkVar i j (if d then ACROSS else DOWN) n.

#[global] Instance Var_countable : Countable Var.
Proof.
  apply (inj_countable' Var_to_tuple Var_of_tuple).
  by intros [i j [] n].
Defined.

(** Modelled from the spec: the class [Crossword] of [crossword.py] is not
    part of the sources at hand.  The puzzle model supplies the set of
    variables (here in its iteration order), the overlap table, which holds
    for an ordered pair of distinct variables either [None] or the pair of
    character offsets that must agree, and the set of words. *)
Record Crossword := mkCrossword {
  variables : list Var;
  overlaps : gmap (Var * Var) (option (nat * nat));
  words : list string
}.

Abbreviation Domains := (gmap Var (list string)).
Abbreviation Assignment := (list (Var * string)).

(** The keys and the values of a dictionary, in insertion order. *)
Definition keys (a : Assignment) : list Var := a.*1.
Definition values (a : Assignment) : list string := a.*2.

(** ** Primitive operations *)

(** [word[i]] for a non-negative index. *)
Definition str_index (word : string) (i : nat) : Res Ascii.ascii :=
  match String.get i word with
  | Some c => Ok c
  | None => Raise IndexError
  end.

(** [self.domains[var]] *)
Definition get_domain (doms : Domains) (var : Var) : Res (list string) :=
  match doms !! var with
  | Some d => Ok d
  | None => Raise KeyError
  end.

(** [self.crossword.overlaps[x, y]] *)
Definition get_overlap (cw : Crossword) (x y : Var) : Res (option (nat * nat)) :=
  match overlaps cw !! (x, y) with
  | Some o => Ok o
  | None => Raise KeyError
  end.

(** [s.remove(word)] on a set.  Every call in the source removes a word that
    was taken from the same set, so the [KeyError] of a missing element does
    not arise. *)
Definition set_remove (word : string) (s : list string) : list string :=
  filter (λ w, w ≠ word) s.

Definition set_remove_all (to_remove : list string) (s : list string) : list string :=
  foldl (λ acc word, set_remove word acc) s to_remove.

Definition has_overlap (cw : Crossword) (x y : Var) : bool :=
  match overlaps cw !! (x, y) with
  | Some (Some _) => true
  | _ => false
  end.

(** Modelled from the spec: [Crossword.neighbors] is not part of the sources
    at hand.  The neighbors of a variable are the other variables that have a
    defined overlap with it. *)
Definition neighbors (cw : Crossword) (var : Var) : list Var :=
  filter (λ v, v ≠ var ∧ has_overlap cw v var) (variables cw).

(** [CrosswordCreator.__init__]: every variable starts with a copy of the
    whole word set. *)
Definition init_domains (cw : Crossword) : Domains :=
  list_to_map ((λ var, (var, words cw)) <$> variables cw).

(** ** [enforce_node_consistency] *)

Definition node_words_to_remove (var : Var) (d : list string) : list string :=
  filter (λ word, String.length word ≠ var_length var) d.

Definition enforce_node_consistency (doms : Domains) : Domains :=
  map_imap (λ var d, Some (set_remove_all (node_words_to_remove var d) d)) doms.

(** ** [revise] *)

(** The inner loop of [revise]: look for a word of [y]'s domain that agrees
    with [word_x]; stop at the first one. *)
Fixpoint consistent_found (word_x : string) (i j : nat) (dy : list string) : Res bool :=
  match dy with
  | [] => Ok false
  | word_y :: rest =>
      cx ← str_index word_x i;
      cy ← str_index word_y j;
      if decide (cx = cy) then Ok true else consistent_found word_x i j rest
  end.

(** The outer loop of [revise]: the words to remove and the flag [revised]. *)
Fixpoint revise_scan (doms : Domains) (y : Var) (i j : nat) (dx : list string)
    : Res (list string * bool) :=
  match dx with
  | [] => Ok ([], false)
  | word_x :: rest =>
      dy ← get_domain doms y;
      found ← consistent_found word_x i j dy;
      '(to_remove, revised) ← revise_scan doms y i j rest;
      if found : bool then Ok (to_remove, revised) else Ok (word_x :: to_remove, true)
  end.

Definition revise (cw : Crossword) (doms : Domains) (x y : Var) : Res (bool * Domains) :=
  overlap ← get_overlap cw x y;
  match overlap with
  | None => Ok (false, doms)
  | Some (i, j) =>
      dx ← get_domain doms x;
      '(to_remove, revised) ← revise_scan doms y i j dx;
      Ok (revised, <[x := set_remove_all to_remove dx]> doms)
  end.

(** ** [ac3] *)

(** The default worklist: every ordered pair of distinct variables with a
    defined overlap, in the order of the two nested loops. *)
Fixpoint arcs_from (cw : Crossword) (v1 : Var) (vs : list Var) : Res (list (Var * Var)) :=
  match vs with
  | [] => Ok []
  | v2 :: rest =>
      keep ← (if decide (v1 ≠ v2) then
                overlap ← get_overlap cw v1 v2;
                Ok (bool_decide (overlap ≠ None))
              else Ok false);
      arcs ← arcs_from cw v1 rest;
      Ok (if keep : bool then (v1, v2) :: arcs else arcs)
  end.

Fixpoint all_arcs (cw : Crossword) (vs : list Var) : Res (list (Var * Var)) :=
  match vs with
  | [] => Ok []
  | v1 :: rest =>
      row ← arcs_from cw v1 (variables cw);
      arcs ← all_arcs cw rest;
      Ok (row ++ arcs)
  end.

Definition initial_queue (cw : Crossword) (arcs : option (list (Var * Var)))
    : Res (list (Var * Var)) :=
  match arcs with
  | None => all_arcs cw (variables cw)
  | Some arcs => Ok arcs
  end.

(** The [while queue] loop. *)
Fixpoint ac3_loop (cw : Crossword) (fuel : nat) (doms : Domains)
    (queue : list (Var * Var)) : Res (bool * Domains) :=
  match fuel with
  | 0 => OutOfFuel
  | S fuel =>
      match queue with
      | [] => Ok (true, doms)
      | (x, y) :: queue =>
          '(revised, doms) ← revise cw doms x y;
          if revised : bool then
            dx ← get_domain doms x;
            if decide (length dx = 0) then Ok (false, doms)
            else
              ac3_loop cw fuel doms
                (queue ++ ((λ k, (k, x)) <$> filter (λ k, k ≠ y) (neighbors cw x)))
          else ac3_loop cw fuel doms queue
      end
  end.

(** The number of candidate words over all variables. *)
Definition domains_size (doms : Domains) : nat :=
  map_fold (λ _ d acc, length d + acc) 0 doms.

(** A bound on the number of iterations of the loop: an iteration either
    shortens the queue by one, or removes a word and adds at most one arc per
    variable. *)
Definition ac3_fuel (cw : Crossword) (doms : Domains) (queue : list (Var * Var)) : nat :=
  S (length queue + domains_size doms * length (variables cw)).

Definition ac3 (cw : Crossword) (doms : Domains) (arcs : option (list (Var * Var)))
    : Res (bool * Domains) :=
  queue ← initial_queue cw arcs;
  ac3_loop cw (ac3_fuel cw doms queue) doms queue.

(** ** [assignment_complete] and [consistent] *)

Definition assignment_complete (cw : Crossword) (a : Assignment) : bool :=
  bool_decide (length a = length (variables cw)).

(** The body of the two nested loops over [assignment.items()]. *)
Definition check_pair (cw : Crossword) (var1 : Var) (word1 : string)
    (var2 : Var) (word2 : string) : Res bool :=
  if decide (var1 ≠ var2) then
    overlap ← get_overlap cw var1 var2;
    match overlap with
    | None => Ok true
    | Some (i, j) =>
        c1 ← str_index word1 i;
        c2 ← str_index word2 j;
        Ok (bool_decide (c1 = c2))
    end
  else Ok true.

Fixpoint check_inner (cw : Crossword) (var1 : Var) (word1 : string)
    (items : Assignment) : Res bool :=
  match items with
  | [] => Ok true
  | (var2, word2) :: rest =>
      ok ← check_pair cw var1 word1 var2 word2;
      if ok : bool then check_inner cw var1 word1 rest else Ok false
  end.

Fixpoint check_outer (cw : Crossword) (items all : Assignment) : Res bool :=
  match items with
  | [] => Ok true
  | (var1, word1) :: rest =>
      ok ← check_inner cw var1 word1 all;
      if ok : bool then check_outer cw rest all else Ok false
  end.

Definition lengths_ok (a : Assignment) : bool :=
  forallb (λ item, bool_decide (String.length item.2 = var_length item.1)) a.

Definition consistent (cw : Crossword) (a : Assignment) : Res bool :=
  if decide (length (values a) ≠ length (remove_dups (values a))) then Ok false
  else if negb (lengths_ok a) then Ok false
  else check_outer cw a a.

(** ** [order_domain_values] *)

(** The innermost loop of [count_eliminated_values]. *)
Fixpoint count_conflicts (word : string) (i j : nat) (dn : list string) (count : nat)
    : Res nat :=
  match dn with
  | [] => Ok count
  | neighbor_word :: rest =>
      c1 ← str_index word i;
      c2 ← str_index neighbor_word j;
      count_conflicts word i j rest (if decide (c1 ≠ c2) then S count else count)
  end.

Fixpoint count_neighbors (cw : Crossword) (doms : Domains) (var : Var)
    (a : Assignment) (word : string) (ns : list Var) (count : nat) : Res nat :=
  match ns with
  | [] => Ok count
  | neighbor :: rest =>
      if decide (neighbor ∉ keys a) then
        overlap ← get_overlap cw var neighbor;
        match overlap with
        | None => count_neighbors cw doms var a word rest count
        | Some (i, j) =>
            dn ← get_domain doms neighbor;
            count ← count_conflicts word i j dn count;
            count_neighbors cw doms var a word rest count
        end
      else count_neighbors cw doms var a word rest count
  end.

Definition count_eliminated_values (cw : Crossword) (doms : Domains) (var : Var)
    (a : Assignment) (word : string) : Res nat :=
  count_neighbors cw doms var a word (neighbors cw var) 0.

(** [sorted(iterable, key=f)]: the keys are computed once per element, in
    order, and the sort is stable. *)
Fixpoint with_keys {A K} (f : A → Res K) (l : list A) : Res (list (K * A)) :=
  match l with
  | [] => Ok []
  | x :: rest =>
      k ← f x;
      kl ← with_keys f rest;
      Ok ((k, x) :: kl)
  end.

Fixpoint insert_by_key {A} (kx : nat * A) (l : list (nat * A)) : list (nat * A) :=
  match l with
  | [] => [kx]
  | ky :: rest =>
      if decide (kx.1 ≤ ky.1) then kx :: ky :: rest
      else ky :: insert_by_key kx rest
  end.

Definition stable_sort {A} (l : list (nat * A)) : list (nat * A) :=
  foldr insert_by_key [] l.

Definition sorted_by_key {A} (f : A → Res nat) (l : list A) : Res (list A) :=
  kl ← with_keys f l;
  Ok ((stable_sort kl).*2).

Definition order_domain_values (cw : Crossword) (doms : Domains) (var : Var)
    (a : Assignment) : Res (list string) :=
  d ← get_domain doms var;
  sorted_by_key (count_eliminated_values cw doms var a) d.

(** ** [select_unassigned_variable] *)

Definition unassigned_vars (cw : Crossword) (a : Assignment) : list Var :=
  filter (λ var, var ∉ keys a) (variables cw).

Definition sort_key (cw : Crossword) (doms : Domains) (var : Var) : Res (nat * Z) :=
  d ← get_domain doms var;
  Ok (length d, (- Z.of_nat (length (neighbors cw var)))%Z).

(** Python's order on pairs. *)
Definition key_lt (k1 k2 : nat * Z) : bool :=
  bool_decide (k1.1 < k2.1 ∨ (k1.1 = k2.1 ∧ (k1.2 < k2.2)%Z)).

(** [min(iterable, key=f)] keeps the first element whose key is minimal. *)
Fixpoint min_scan (cw : Crossword) (doms : Domains) (best : Var) (kbest : nat * Z)
    (rest : list Var) : Res Var :=
  match rest with
  | [] => Ok best
  | var :: rest =>
      k ← sort_key cw doms var;
      if key_lt k kbest then min_scan cw doms var k rest
      else min_scan cw doms best kbest rest
  end.

Definition select_unassigned_variable (cw : Crossword) (doms : Domains)
    (a : Assignment) : Res Var :=
  match unassigned_vars cw a with
  | [] => Raise ValueError
  | var :: rest =>
      k ← sort_key cw doms var;
      min_scan cw doms var k rest
  end.

(** ** [backtrack] *)

(** The state the search works on: [self.domains], the dictionary
    [assignment] that all recursive calls share, and a ghost counter of the
    calls of [backtrack] made so far. *)
Record World := mkWorld {
  domains : Domains;
  assignment : Assignment;
  backtrack_calls : nat
}.

Definition set_assignment (w : World) (a : Assignment) : World :=
  mkWorld (domains w) a (backtrack_calls w).

Definition enter_backtrack (w : World) : World :=
  mkWorld (domains w) (assignment w) (S (backtrack_calls w)).

(** [assignment[var] = value] *)
Definition dict_set (a : Assignment) (var : Var) (value : string) : Assignment :=
  if decide (var ∈ keys a)
  then (λ item, if decide (item.1 = var) then (var, value) else item) <$> a
  else a ++ [(var, value)].

(** [del assignment[var]] *)
Definition dict_del (a : Assignment) (var : Var) : Res Assignment :=
  if decide (var ∈ keys a)
  then Ok (filter (λ item, item.1 ≠ var) a)
  else Raise KeyError.

(** One iteration of the [for value in ...] loop, up to the [del]: the
    result of the recursive call, if there was one. *)
Definition try_value (cw : Crossword)
    (rec : World → Res (option Assignment * World))
    (var : Var) (value : string) (w : World) : Res (option Assignment * World) :=
  let w := set_assignment w (dict_set (assignment w) var value) in
  ok ← consistent cw (assignment w);
  '(result, w) ← (if ok : bool then rec w else Ok (None, w));
  match result with
  | Some r => Ok (Some r, w)
  | None =>
      a ← dict_del (assignment w) var;
      Ok (None, set_assignment w a)
  end.

Fixpoint try_values (cw : Crossword)
    (rec : World → Res (option Assignment * World))
    (var : Var) (vals : list string) (w : World) : Res (option Assignment * World) :=
  match vals with
  | [] => Ok (None, w)
  | value :: rest =>
      '(result, w) ← try_value cw rec var value w;
      match result with
      | Some r => Ok (Some r, w)
      | None => try_values cw rec var rest w
      end
  end.

Fixpoint backtrack_rec (cw : Crossword) (fuel : nat) (w : World)
    : Res (option Assignment * World) :=
  match fuel with
  | 0 => OutOfFuel
  | S fuel =>
      let w := enter_backtrack w in
      if assignment_complete cw (assignment w) then Ok (Some (assignment w), w)
      else
        var ← select_unassigned_variable cw (domains w) (assignment w);
        vals ← order_domain_values cw (domains w) var (assignment w);
        try_values cw (backtrack_rec cw fuel) var vals w
  end.

(** Every level of the recursion assigns one more variable, so the depth is
    bounded by the number of unassigned variables. *)
Definition backtrack (cw : Crossword) (w : World) : Res (option Assignment * World) :=
  backtrack_rec cw (S (length (unassigned_vars cw (assignment w)))) w.

(** ** [solve] *)

(** [solve] on a creator whose domains are [doms]: the result of [ac3] is
    dropped, and the search starts from the empty dictionary. *)
Definition solve (cw : Crossword) (doms : Domains) : Res (option Assignment * World) :=
  let doms := enforce_node_consistency doms in
  '(_, doms) ← ac3 cw doms None;
  backtrack cw (mkWorld doms [] 0).

(** [CrosswordCreator(crossword).solve()] *)
Definition solve_crossword (cw : Crossword) : Res (option Assignment * World) :=
  solve cw (init_domains cw).

(** * Specification vocabulary *)

(** Two words agree at the offsets of an overlap: [wx[i] == wy[j]]. *)
Definition agree (i j : nat) (wx wy : string) : Prop :=
  ∃ c, String.get i wx = Some c ∧ String.get j wy = Some c.

#[global] Instance agree_dec i j wx wy : Decision (agree i j wx wy).
Proof.
  unfold agree.
  destruct (String.get i wx) as [c|] eqn:Hx; [|right; by intros (? & ? & ?)].
  destruct (String.get j wy) as [c'|] eqn:Hy; [|right; by intros (? & ? & ?)].
  destruct (decide (c = c')) as [->|Hne]; [left; eauto|].
  right. intros (? & ? & ?). congruence.
Defined.

(** A word of [x] has a support in the domain [dy] of [y]. *)
Definition supported (i j : nat) (dy : list string) (wx : string) : Prop :=
  Exists (agree i j wx) dy.

(** All words of a domain can be indexed at an offset. *)
Definition indexable (i : nat) (d : list string) : Prop :=
  Forall (λ w, i < String.length w) d.


(** The number of candidates left for a variable, and its degree. *)
Definition remaining (doms : Domains) (v : Var) : nat :=
  length (default [] (doms !! v)).

Definition degree (cw : Crossword) (v : Var) : nat := length (neighbors cw v).

Definition key_of (cw : Crossword) (doms : Domains) (v : Var) : nat * Z :=
  (remaining doms v, (- Z.of_nat (degree cw v))%Z).

(** Every variable of the puzzle has an entry in [self.domains]. *)
Definition domains_cover (cw : Crossword) (doms : Domains) : Prop :=
  Forall (λ v, is_Some (doms !! v)) (variables cw).


(** A computation that neither runs out of fuel nor raises [ValueError]:
    it returns, or raises the [KeyError] or [IndexError] of a failed lookup. *)
Definition safe {A} (m : Res A) : Prop :=
  m ≠ OutOfFuel ∧ m ≠ Raise ValueError.


(** A search procedure that leaves [self.domains] alone and, when it fails,
    hands the dictionary [assignment] back as it received it. *)
Definition restores (rec : World → Res (option Assignment * World)) : Prop :=
  ∀ w r w', rec w = Ok (r, w') →
    domains w' = domains w ∧ (r = None → assignment w' = assignment w).

(** The keys of a dictionary are distinct variables of the puzzle. *)
Definition well_keyed (cw : Crossword) (a : Assignment) : Prop :=
  NoDup (keys a) ∧ keys a ⊆ variables cw.


(** What the Consistency Checker stands for: the assigned words are pairwise
    distinct, every word has the length of its variable, and two assigned
    variables with a defined overlap agree at its offsets. *)
Definition overlaps_agree (cw : Crossword) (a : Assignment) : Prop :=
  ∀ v1 w1 v2 w2 i j,
    (v1, w1) ∈ a → (v2, w2) ∈ a → v1 ≠ v2 →
    overlaps cw !! (v1, v2) = Some (Some (i, j)) → agree i j w1 w2.

Definition lengths_match (a : Assignment) : Prop :=
  Forall (λ item, String.length item.2 = var_length item.1) a.

Definition satisfies_checker (cw : Crossword) (a : Assignment) : Prop :=
  NoDup (values a) ∧ lengths_match a ∧ overlaps_agree cw a.

(** The dictionary has exactly one entry for every variable of the puzzle. *)
Definition covers (cw : Crossword) (a : Assignment) : Prop :=
  NoDup (keys a) ∧ ∀ v, v ∈ keys a ↔ v ∈ variables cw.


(** A search procedure that only returns dictionaries which are complete and
    satisfy [Inv], when it starts from one that satisfies [Inv]. *)
Definition returns_inv (cw : Crossword) (Inv : Assignment → Prop)
    (rec : World → Res (option Assignment * World)) : Prop :=
  ∀ w r w', Inv (assignment w) → rec w = Ok (Some r, w') →
    Inv r ∧ assignment_complete cw r = true.


(** [doms'] is [doms] with some candidates removed. *)
Definition narrowed (doms doms' : Domains) : Prop :=
  ∀ v, match doms !! v with
       | Some d => ∃ d', doms' !! v = Some d' ∧ d' ⊆ d
       | None => doms' !! v = None
       end.

(** Every candidate has the length of its variable. *)
Definition node_consistent (doms : Domains) : Prop :=
  ∀ v d, doms !! v = Some d → Forall (λ w, String.length w = var_length v) d.

(** Every candidate of [x] has a support in the domain of [y]. *)
Definition arc_consistent (cw : Crossword) (doms : Domains) (x y : Var) : Prop :=
  ∀ i j dx dy,
    overlaps cw !! (x, y) = Some (Some (i, j)) →
    doms !! x = Some dx → doms !! y = Some dy →
    ∀ wx, wx ∈ dx → ∃ wy, wy ∈ dy ∧ agree i j wx wy.

(** An arc of the puzzle: two distinct variables with a defined overlap. *)
Definition is_arc (cw : Crossword) (arc : Var * Var) : Prop :=
  arc.1 ∈ variables cw ∧ arc.2 ∈ variables cw ∧ arc.1 ≠ arc.2 ∧
  has_overlap cw arc.1 arc.2.

(** Assumptions on the puzzle model, which the solver does not check: the
    offsets of an overlap lie within the lengths of the two variables, and
    the table is symmetric. *)
Definition offsets_in_range (cw : Crossword) : Prop :=
  ∀ x y i j, overlaps cw !! (x, y) = Some (Some (i, j)) →
    i < var_length x ∧ j < var_length y.

Definition overlaps_symmetric (cw : Crossword) : Prop :=
  ∀ x y i j, overlaps cw !! (x, y) = Some (Some (i, j)) →
    overlaps cw !! (y, x) = Some (Some (j, i)).


(** The invariant of the worklist loop: an arc of the puzzle is waiting in
    the queue or is consistent. *)
Definition ac3_invariant (cw : Crossword) (doms : Domains)
    (queue : list (Var * Var)) : Prop :=
  ∀ arc, is_arc cw arc → arc ∈ queue ∨ arc_consistent cw doms arc.1 arc.2.


(** What [solve] returns, without the final state. *)
Definition returned (m : Res (option Assignment * World)) : Res (option Assignment) :=
  p ← m; Ok p.1.

(** A check of the two assumptions on the overlap table, by enumeration. *)
Definition well_formedb (cw : Crossword) : bool :=
  forallb
    (λ entry : Var * Var * option (nat * nat),
       match entry.2 with
       | Some (i, j) =>
           bool_decide (i < var_length entry.1.1 ∧ j < var_length entry.1.2 ∧
                        overlaps cw !! (entry.1.2, entry.1.1) = Some (Some (j, i)))
       | None => true
       end)
    (map_to_list (overlaps cw)).

(** * Example puzzles *)

Definition v_across : Var := mkVar 0 0 ACROSS 3.
Definition v_down : Var := mkVar 0 0 DOWN 3.
Definition v_down4 : Var := mkVar 0 0 DOWN 4.

(** Two slots of length 3 that share their first cell. *)
Definition cw_cross : Crossword :=
  mkCrossword [v_across; v_down]
    (list_to_map [((v_across, v_down), Some (0, 0)); ((v_down, v_across), Some (0, 0))])
    ["CAT"; "CAR"; "DOG"]%string.

(** The same grid with two words that do not share their first letter. *)
Definition cw_unsolvable : Crossword :=
  mkCrossword [v_across; v_down]
    (list_to_map [((v_across, v_down), Some (0, 0)); ((v_down, v_across), Some (0, 0))])
    ["CAT"; "DOG"]%string.

(** A slot of length 3 crossing a slot of length 4, and no word of length 4. *)
Definition cw_no_long_word : Crossword :=
  mkCrossword [v_across; v_down4]
    (list_to_map [((v_across, v_down4), Some (0, 0)); ((v_down4, v_across), Some (0, 0))])
    ["CAT"; "DOG"]%string.

(** A single slot of length 3 and no word of that length. *)
Definition cw_short_word : Crossword :=
  mkCrossword [v_across] ∅ ["AB"]%string.

(** A single slot and two words, the word set enumerated in two orders. *)
Definition cw_cat_dog : Crossword :=
  mkCrossword [v_across] ∅ ["CAT"; "DOG"]%string.

Definition cw_dog_cat : Crossword :=
  mkCrossword [v_across] ∅ ["DOG"; "CAT"]%string.

(** Domains in which [DOG] has no support across the overlap. *)
Definition doms_cat_dog_car : Domains :=
  list_to_map [(v_across, ["CAT"; "DOG"]%string); (v_down, ["CAR"]%string)].


(** The overlap table has an entry for every ordered pair of distinct
    variables of the puzzle. *)
Definition overlaps_total (cw : Crossword) : Prop :=
  ∀ x y, x ∈ variables cw → y ∈ variables cw → x ≠ y →
    is_Some (overlaps cw !! (x, y)).

(** What the two nested loops of [consistent] ask of a pair of entries. *)
Definition pair_agrees (cw : Crossword) (v1 : Var) (w1 : string)
    (v2 : Var) (w2 : string) : Prop :=
  v1 ≠ v2 → ∀ i j, overlaps cw !! (v1, v2) = Some (Some (i, j)) → agree i j w1 w2.


#[global] Instance Exception_eq_dec : EqDecision Exception.
Proof. solve_decision. Defined.

#[global] Instance Res_eq_dec {A} `{EqDecision A} : EqDecision (Res A).
Proof. solve_decision. Defined.

(** The candidates of a neighbor that a word rules out across an overlap,
    and their number over the unassigned neighbors of a variable. *)
Definition ruled_out (i j : nat) (word : string) (dn : list string) : list string :=
  filter (λ neighbor_word, ¬ agree i j word neighbor_word) dn.

Definition eliminated_by (cw : Crossword) (doms : Domains) (var : Var)
    (a : Assignment) (word : string) (neighbor : Var) : nat :=
  if decide (neighbor ∈ keys a) then 0
  else match overlaps cw !! (var, neighbor), doms !! neighbor with
       | Some (Some (i, j)), Some dn => length (ruled_out i j word dn)
       | _, _ => 0
       end.

Definition eliminated (cw : Crossword) (doms : Domains) (var : Var)
    (a : Assignment) (word : string) : nat :=
  sum_list_with (eliminated_by cw doms var a word) (neighbors cw var).

(** The order of two keyed elements. *)
Definition key_le {A} (kx ky : nat * A) : Prop := kx.1 ≤ ky.1.


(** Every word of a dictionary is a candidate of its variable. *)
Definition in_domains (doms : Domains) (s : Assignment) : Prop :=
  ∀ v w, (v, w) ∈ s → ∃ d, doms !! v = Some d ∧ w ∈ d.

(** A solution of the puzzle: one word for every variable, and the three
    constraints hold. *)
Definition solution (cw : Crossword) (s : Assignment) : Prop :=
  covers cw s ∧ satisfies_checker cw s.


(** A search procedure whose result, when it returns a dictionary, is the
    dictionary it was given, with entries added at the end, all of them
    candidates of their variables. *)
Definition returns_extension (rec : World → Res (option Assignment * World)) : Prop :=
  ∀ w r w', rec w = Ok (Some r, w') →
    assignment w' = r ∧ assignment w `prefix_of` r ∧
    (in_domains (domains w) (assignment w) → in_domains (domains w) r).


(** * [letter_grid] *)

(** The grid of letters: rows of cells that hold a character or [None]. *)
Abbreviation Grid := (list (list (option Ascii.ascii))).

(** The two nested comprehensions that build the empty grid.  The width and
    the height are fields of the class [Crossword], which is not part of the
    sources at hand; they are arguments here. *)
Definition blank_grid (height width : nat) : Grid :=
  replicate height (replicate width None).

(** The cell of the [k]-th letter of a variable. *)
Definition letter_cell (variable : Var) (k : nat) : nat * nat :=
  (var_i variable + (if decide (var_direction variable = DOWN) then k else 0),
   var_j variable + (if decide (var_direction variable = ACROSS) then k else 0)).

(** [letters[i][j] = c]: both list accesses raise [IndexError] out of
    range. *)
Definition grid_set (letters : Grid) (i j : nat) (c : Ascii.ascii) : Res Grid :=
  match letters !! i with
  | None => Raise IndexError
  | Some row =>
      if decide (j < length row)
      then Ok (<[i := <[j := Some c]> row]> letters)
      else Raise IndexError
  end.

(** The loop [for k in range(len(word))]. *)
Fixpoint write_word (variable : Var) (word : string) (ks : list nat)
    (letters : Grid) : Res Grid :=
  match ks with
  | [] => Ok letters
  | k :: ks =>
      c ← str_index word k;
      letters ← grid_set letters (letter_cell variable k).1
                  (letter_cell variable k).2 c;
      write_word variable word ks letters
  end.

(** The loop [for variable, word in assignment.items()]. *)
Fixpoint letter_grid_loop (items : Assignment) (letters : Grid) : Res Grid :=
  match items with
  | [] => Ok letters
  | (variable, word) :: rest =>
      letters ← write_word variable word (seq 0 (String.length word)) letters;
      letter_grid_loop rest letters
  end.

Definition letter_grid (height width : nat) (assignment : Assignment) : Res Grid :=
  letter_grid_loop assignment (blank_grid height width).

(** [letters[i][j]], when both indices are in range. *)
Definition grid_get (letters : Grid) (i j : nat) : option (option Ascii.ascii) :=
  row ← letters !! i; row !! j.

Definition grid_shape (height width : nat) (letters : Grid) : Prop :=
  length letters = height ∧ Forall (λ row, length row = width) letters.

(** All letters of all words fall inside the grid. *)
Definition fits (height width : nat) (a : Assignment) : Prop :=
  Forall (λ item,
            Forall (λ k, (letter_cell item.1 k).1 < height ∧
                         (letter_cell item.1 k).2 < width)
              (seq 0 (String.length item.2))) a.

(** Words that share a cell have the same letter there. *)
Definition cells_agree (a : Assignment) : Prop :=
  ∀ v1 w1 v2 w2 k1 k2 c1 c2,
    (v1, w1) ∈ a → (v2, w2) ∈ a →
    letter_cell v1 k1 = letter_cell v2 k2 →
    String.get k1 w1 = Some c1 → String.get k2 w2 = Some c2 → c1 = c2.

(** No letter of any word falls on the cell. *)
Definition uncovered (a : Assignment) (i j : nat) : Prop :=
  ∀ v w k, (v, w) ∈ a → k < String.length w → letter_cell v k ≠ (i, j).


(** No variable has an empty domain. *)
Definition domains_nonempty (doms : Domains) : Prop :=
  ∀ v d, doms !! v = Some d → d ≠ [].


(** An assignment for the puzzle [cw_cross]. *)
Definition a_cat_car : Assignment :=
  [(v_across, "CAT"%string); (v_down, "CAR"%string)].

(** * Properties *)

(** ** The result monad *)

Lemma bind_Ok {A B} (m : Res A) (f : A → Res B) (b : B) :
  m ≫= f = Ok b → ∃ a, m = Ok a ∧ f a = Ok b.
Proof. destruct m; [eauto | done | done]. Qed.

Lemma get_domain_Ok doms var d : get_domain doms var = Ok d ↔ doms !! var = Some d.
Proof. unfold get_domain. destruct (doms !! var); naive_solver. Qed.

Lemma get_overlap_Ok cw x y o : get_overlap cw x y = Ok o ↔ overlaps cw !! (x, y) = Some o.
Proof. unfold get_overlap. destruct (overlaps cw !! (x, y)); naive_solver. Qed.

Lemma str_index_Ok word i c : str_index word i = Ok c ↔ String.get i word = Some c.
Proof. unfold str_index. destruct (String.get i word); naive_solver. Qed.

Lemma string_get_lt (word : string) (i : nat) :
  i < String.length word → ∃ c, String.get i word = Some c.
Proof.
  revert i. induction word as [|a word IH]; intros i Hi; simpl in *; [lia|].
  destruct i as [|i]; [eauto|]. apply IH. lia.
Qed.

Lemma string_get_Some_lt (word : string) (i : nat) c :
  String.get i word = Some c → i < String.length word.
Proof.
  revert i. induction word as [|a word IH]; intros i Hi; simpl in *; [done|].
  destruct i as [|i]; [lia|]. apply IH in Hi. lia.
Qed.

(** ** Sets as lists *)

Lemma filter_ext_in {A} (P Q : A → Prop)
    `{!∀ x, Decision (P x), !∀ x, Decision (Q x)} (l : list A) :
  (∀ x, x ∈ l → (P x ↔ Q x)) → filter P l = filter Q l.
Proof.
  induction l as [|a l IH]; intros Hiff; [done|].
  rewrite !filter_cons, IH by (intros; apply Hiff; by right).
  apply decide_ext, Hiff. by left.
Qed.

Lemma filter_all {A} (P : A → Prop) `{!∀ x, Decision (P x)} (l : list A) :
  (∀ x, x ∈ l → P x) → filter P l = l.
Proof.
  induction l as [|a l IH]; intros HP; [done|].
  rewrite filter_cons_True by (apply HP; by left).
  f_equal. apply IH. intros; apply HP; by right.
Qed.

Lemma filter_eq_length {A} (P : A → Prop) `{!∀ x, Decision (P x)} (l : list A) :
  length (filter P l) = length l → filter P l = l.
Proof.
  intros Hlen. apply filter_all. intros x Hx.
  destruct (decide (P x)) as [|Hn]; [done|].
  pose proof (length_filter_lt P l x Hx Hn). lia.
Qed.

Lemma set_remove_all_filter (to_remove s : list string) :
  set_remove_all to_remove s = filter (λ w, w ∉ to_remove) s.
Proof.
  unfold set_remove_all. revert s.
  induction to_remove as [|r to_remove IH]; intros s; simpl.
  - symmetry. apply filter_all. intros w _. apply not_elem_of_nil.
  - rewrite IH. unfold set_remove. rewrite list_filter_filter.
    apply list_filter_iff. intros w. rewrite not_elem_of_cons. tauto.
Qed.

(** ** Node consistency *)

Lemma node_filter_eq (var : Var) (d : list string) :
  set_remove_all (node_words_to_remove var d) d
  = filter (λ w, String.length w = var_length var) d.
Proof.
  rewrite set_remove_all_filter. apply filter_ext_in. intros w Hw.
  unfold node_words_to_remove. rewrite list_elem_of_filter.
  destruct (decide (String.length w = var_length var)); tauto.
Qed.

Lemma lookup_enforce_node_consistency (doms : Domains) (v : Var) :
  enforce_node_consistency doms !! v
  = filter (λ w, String.length w = var_length v) <$> doms !! v.
Proof.
  unfold enforce_node_consistency. rewrite map_lookup_imap.
  destruct (doms !! v) as [d|]; simpl; [|done]. by rewrite node_filter_eq.
Qed.

(** C6.  After [enforce_node_consistency], the domain of a variable [v] is
    its old domain without the words whose length differs from the length of
    [v]: every word that remains has length [var_length v], and a word of the
    old domain was removed exactly when its length differs. *)
Theorem enforce_node_consistency_spec (doms : Domains) (v : Var) (d : list string) :
  doms !! v = Some d →
  ∃ d', enforce_node_consistency doms !! v = Some d' ∧
    d' = filter (λ w, String.length w = var_length v) d ∧
    (∀ w, w ∈ d' → String.length w = var_length v) ∧
    (∀ w, w ∈ d → (w ∉ d' ↔ String.length w ≠ var_length v)).
Proof.
  intros Hd. eexists. split; [|split; [reflexivity|split]].
  - by rewrite lookup_enforce_node_consistency, Hd.
  - intros w. rewrite list_elem_of_filter. tauto.
  - intros w Hw. rewrite list_elem_of_filter. tauto.
Qed.

(** ** [revise] *)

Lemma supported_nil i j wx : ¬ supported i j [] wx.
Proof. intros H. by apply Exists_nil in H. Qed.

Lemma supported_cons i j wy dy wx :
  supported i j (wy :: dy) wx ↔ agree i j wx wy ∨ supported i j dy wx.
Proof. apply Exists_cons. Qed.

Lemma consistent_found_spec (word_x : string) (i j : nat) (dy : list string) :
  i < String.length word_x → indexable j dy →
  consistent_found word_x i j dy = Ok (bool_decide (supported i j dy word_x)).
Proof.
  intros Hi Hdy. destruct (string_get_lt _ _ Hi) as [cx Hcx].
  induction Hdy as [|word_y dy Hj Hdy IH]; cbn [consistent_found].
  - by rewrite (bool_decide_eq_false_2 _ (supported_nil _ _ _)).
  - destruct (string_get_lt _ _ Hj) as [cy Hcy].
    unfold str_index at 1 2. rewrite Hcx, Hcy. cbn [mbind Res_bind].
    destruct (decide (cx = cy)) as [->|Hne].
    + rewrite bool_decide_eq_true_2; [done|].
      apply supported_cons. left. by exists cy.
    + rewrite IH. f_equal. apply bool_decide_ext.
      rewrite supported_cons. split; [tauto|].
      intros [(c & ? & ?)|]; [congruence|done].
Qed.

Lemma filter_not_nil {A} (P : A → Prop) `{!∀ x, Decision (P x)} (l : list A) :
  filter (λ w, ¬ P w) l = [] ↔ filter P l = l.
Proof.
  split; intros Heq.
  - apply filter_all. intros x Hx. destruct (decide (P x)) as [|Hn]; [done|].
    by destruct (filter_nil_not_elem_of _ _ x Heq Hn).
  - induction l as [|a l IH]; [done|].
    rewrite filter_cons in Heq. destruct (decide (P a)) as [Ha|Ha].
    + rewrite filter_cons_False by tauto. apply IH. congruence.
    + pose proof (length_filter P l) as Hlen. rewrite Heq in Hlen.
      simpl in Hlen. lia.
Qed.

Lemma revise_scan_spec (doms : Domains) (y : Var) (i j : nat) (dx dy : list string) :
  doms !! y = Some dy → indexable i dx → indexable j dy →
  revise_scan doms y i j dx
  = Ok (filter (λ w, ¬ supported i j dy w) dx,
        bool_decide (filter (supported i j dy) dx ≠ dx)).
Proof.
  intros Hy Hdx Hdy. induction Hdx as [|word_x dx Hi Hdx IH]; cbn [revise_scan].
  - by rewrite bool_decide_eq_false_2 by (intros Hne; by apply Hne).
  - unfold get_domain. rewrite Hy. cbn [mbind Res_bind].
    rewrite consistent_found_spec by done. cbn [mbind Res_bind]. rewrite IH.
    cbn [mbind Res_bind]. rewrite !filter_cons.
    destruct (decide (supported i j dy word_x)) as [Hs|Hs].
    + rewrite bool_decide_eq_true_2 by done. rewrite decide_False by tauto.
      do 2 f_equal. apply bool_decide_ext. split; [congruence|].
      intros Hne Heq. apply Hne. by f_equal.
    + rewrite bool_decide_eq_false_2 by done. rewrite decide_True by done.
      do 2 f_equal. symmetry. apply bool_decide_eq_true_2. intros Heq.
      pose proof (length_filter (supported i j dy) dx) as Hlen.
      rewrite Heq in Hlen. simpl in Hlen. lia.
Qed.

Lemma filter_not_in_filter_not {A} (P : A → Prop)
    `{!∀ x, Decision (P x)} `{!EqDecision A} (l : list A) :
  filter (λ w, w ∉ filter (λ w, ¬ P w) l) l = filter P l.
Proof.
  apply filter_ext_in. intros w Hw. rewrite list_elem_of_filter.
  destruct (decide (P w)); tauto.
Qed.

(** The effect of [revise] on an overlapping pair whose words can be
    indexed at the offsets. *)
Lemma revise_overlap (cw : Crossword) (doms : Domains) (x y : Var)
    (i j : nat) (dx dy : list string) :
  overlaps cw !! (x, y) = Some (Some (i, j)) →
  doms !! x = Some dx → doms !! y = Some dy →
  indexable i dx → indexable j dy →
  revise cw doms x y
  = Ok (bool_decide (filter (supported i j dy) dx ≠ dx),
        <[x := filter (supported i j dy) dx]> doms).
Proof.
  intros Ho Hx Hy Hdx Hdy. unfold revise, get_overlap, get_domain.
  rewrite Ho, Hx. cbn [mbind Res_bind].
  rewrite (revise_scan_spec _ _ _ _ _ dy) by done. cbn [mbind Res_bind].
  by rewrite set_remove_all_filter, filter_not_in_filter_not.
Qed.

Lemma revise_no_overlap (cw : Crossword) (doms : Domains) (x y : Var) :
  overlaps cw !! (x, y) = Some None → revise cw doms x y = Ok (false, doms).
Proof. intros Ho. unfold revise, get_overlap. by rewrite Ho. Qed.

(** C4.  For distinct variables [x] and [y]: when the overlap table holds no
    overlap for [(x, y)], [revise] changes nothing and returns [False];
    when it holds the offsets [(i, j)], [revise] removes from the domain of
    [x] exactly the words that agree with no word of the domain of [y] at
    these offsets, leaves the domain of [y] and of every other variable as it
    was, and returns [True] exactly when the domain of [x] changed.  The
    words of the two domains are taken to be long enough to be indexed at
    the offsets. *)
Theorem revise_spec (cw : Crossword) (doms : Domains) (x y : Var)
    (dx dy : list string) :
  x ≠ y → doms !! x = Some dx → doms !! y = Some dy →
  match overlaps cw !! (x, y) with
  | Some None => revise cw doms x y = Ok (false, doms)
  | Some (Some (i, j)) =>
      indexable i dx → indexable j dy →
      ∃ revised doms' dx',
        revise cw doms x y = Ok (revised, doms') ∧
        doms' !! x = Some dx' ∧
        dx' = filter (supported i j dy) dx ∧
        (∀ wx, wx ∈ dx →
           (wx ∉ dx' ↔ ¬ ∃ wy, wy ∈ dy ∧ agree i j wx wy)) ∧
        (∀ wx, wx ∈ dx' → wx ∈ dx) ∧
        doms' !! y = Some dy ∧
        (∀ z, z ≠ x → doms' !! z = doms !! z) ∧
        (revised = true ↔ dx' ≠ dx)
  | None => revise cw doms x y = Raise KeyError
  end.
Proof.
  intros Hxy Hx Hy. destruct (overlaps cw !! (x, y)) as [[[i j]|]|] eqn:Ho.
  - intros Hdx Hdy. eexists _, _, _.
    split; [by apply revise_overlap|].
    split; [apply lookup_insert_eq|]. split; [done|].
    split; [|split; [|split; [|split]]].
    + intros wx Hwx. rewrite list_elem_of_filter. unfold supported.
      rewrite Exists_exists. split; [|tauto].
      intros Hn (wy & ? & ?). apply Hn. split; [|done]. by exists wy.
    + intros wx. rewrite list_elem_of_filter. tauto.
    + by rewrite lookup_insert_ne.
    + intros z Hz. by rewrite lookup_insert_ne.
    + apply bool_decide_eq_true.
  - by apply revise_no_overlap.
  - unfold revise, get_overlap. by rewrite Ho.
Qed.

(** ** [select_unassigned_variable] *)

Lemma elem_of_unassigned_vars cw a v :
  v ∈ unassigned_vars cw a ↔ (v ∉ keys a) ∧ v ∈ variables cw.
Proof. unfold unassigned_vars. by rewrite list_elem_of_filter. Qed.

Lemma sort_key_Ok cw doms v :
  is_Some (doms !! v) → sort_key cw doms v = Ok (key_of cw doms v).
Proof.
  intros [d Hd]. unfold sort_key, get_domain, key_of, remaining, degree.
  by rewrite Hd.
Qed.

Lemma sort_key_inv cw doms v k :
  sort_key cw doms v = Ok k → k = key_of cw doms v.
Proof.
  unfold sort_key, get_domain, key_of, remaining, degree.
  destruct (doms !! v); simpl; congruence.
Qed.

Lemma key_lt_false (k1 k2 : nat * Z) :
  key_lt k1 k2 = false ↔ k2.1 < k1.1 ∨ (k2.1 = k1.1 ∧ (k2.2 ≤ k1.2)%Z).
Proof. unfold key_lt. rewrite bool_decide_eq_false. lia. Qed.

Lemma key_lt_true (k1 k2 : nat * Z) :
  key_lt k1 k2 = true ↔ k1.1 < k2.1 ∨ (k1.1 = k2.1 ∧ (k1.2 < k2.2)%Z).
Proof. unfold key_lt. by rewrite bool_decide_eq_true. Qed.

(** [min] returns an element of its argument, whatever the keys are. *)
Lemma min_scan_elem cw doms best kbest rest v :
  min_scan cw doms best kbest rest = Ok v → v ∈ best :: rest.
Proof.
  revert best kbest. induction rest as [|u rest IH]; intros best kbest; simpl.
  - intros [= ->]. by left.
  - intros (k & _ & Hk)%bind_Ok. destruct (key_lt k kbest).
    + apply IH in Hk. by right.
    + apply IH in Hk. apply elem_of_cons in Hk as [->|?]; [by left|].
      right. by right.
Qed.

Lemma min_scan_spec cw doms best rest :
  Forall (λ v, is_Some (doms !! v)) rest →
  ∃ v, min_scan cw doms best (key_of cw doms best) rest = Ok v ∧
       key_lt (key_of cw doms best) (key_of cw doms v) = false ∧
       ∀ u, u ∈ rest → key_lt (key_of cw doms u) (key_of cw doms v) = false.
Proof.
  intros Hrest. revert best.
  induction Hrest as [|u rest Hu Hrest IH]; intros best; simpl.
  - exists best. split; [done|]. split; [|by intros ? ?%elem_of_nil].
    apply key_lt_false. lia.
  - rewrite sort_key_Ok by done. simpl.
    destruct (key_lt (key_of cw doms u) (key_of cw doms best)) eqn:Hlt.
    + destruct (IH u) as (v & Hv & Hbest & Hall). exists v.
      split; [done|]. apply key_lt_true in Hlt. apply key_lt_false in Hbest.
      split; [apply key_lt_false; lia|].
      intros u' [->|Hu']%elem_of_cons; [by apply key_lt_false|by apply Hall].
    + destruct (IH best) as (v & Hv & Hbest & Hall). exists v.
      split; [done|]. split; [done|].
      intros u' [->|Hu']%elem_of_cons; [|by apply Hall].
      apply key_lt_false in Hlt, Hbest. apply key_lt_false. lia.
Qed.

Lemma select_unassigned_variable_elem cw doms a v :
  select_unassigned_variable cw doms a = Ok v → v ∈ unassigned_vars cw a.
Proof.
  unfold select_unassigned_variable.
  destruct (unassigned_vars cw a) as [|u rest]; [done|].
  intros (k & _ & Hk)%bind_Ok. by apply min_scan_elem in Hk.
Qed.

Lemma select_unassigned_variable_min cw doms a :
  Forall (λ v, is_Some (doms !! v)) (unassigned_vars cw a) →
  unassigned_vars cw a ≠ [] →
  ∃ v, select_unassigned_variable cw doms a = Ok v ∧
       ∀ u, u ∈ unassigned_vars cw a →
            key_lt (key_of cw doms u) (key_of cw doms v) = false.
Proof.
  unfold select_unassigned_variable.
  destruct (unassigned_vars cw a) as [|u rest]; [done|].
  intros [Hu Hrest]%Forall_cons _. rewrite sort_key_Ok by done. simpl.
  destruct (min_scan_spec cw doms u rest Hrest) as (v & Hv & Hbest & Hall).
  exists v. split; [done|].
  intros u' [->|Hu']%elem_of_cons; [done|by apply Hall].
Qed.

(** C8.  On an incomplete assignment, [select_unassigned_variable] returns
    an unassigned variable whose domain is the smallest among the unassigned
    variables, and whose degree is the largest among the unassigned variables
    with a domain of that size. *)
Theorem select_unassigned_variable_spec (cw : Crossword) (doms : Domains)
    (a : Assignment) :
  domains_cover cw doms →
  (∃ u, u ∈ variables cw ∧ u ∉ keys a) →
  ∃ v, select_unassigned_variable cw doms a = Ok v ∧
       v ∈ variables cw ∧ (v ∉ keys a) ∧
       ∀ u, u ∈ variables cw → u ∉ keys a →
            remaining doms v ≤ remaining doms u ∧
            (remaining doms u = remaining doms v → degree cw u ≤ degree cw v).
Proof.
  intros Hcover (u0 & Hu0 & Hna).
  destruct (select_unassigned_variable_min cw doms a) as (v & Hv & Hmin).
  - unfold domains_cover in Hcover. rewrite Forall_forall in Hcover.
    apply Forall_forall. intros v [_ Hv]%elem_of_unassigned_vars. auto.
  - intros Hnil. assert (u0 ∈ unassigned_vars cw a) as Hin
      by by apply elem_of_unassigned_vars.
    rewrite Hnil in Hin. by apply elem_of_nil in Hin.
  - exists v. split; [done|].
    pose proof (select_unassigned_variable_elem _ _ _ _ Hv) as Hel.
    apply elem_of_unassigned_vars in Hel as [? ?]. do 2 (split; [done|]).
    intros u Hu Hua.
    assert (u ∈ unassigned_vars cw a) as Hin by by apply elem_of_unassigned_vars.
    apply Hmin, key_lt_false in Hin. unfold key_of in Hin. simpl in Hin. lia.
Qed.

(** ** Which failures the loops can end in *)

Lemma safe_Ok {A} (a : A) : safe (Ok a).
Proof. by split. Qed.

Lemma safe_KeyError {A} : safe (@Raise A KeyError).
Proof. by split. Qed.

Lemma safe_IndexError {A} : safe (@Raise A IndexError).
Proof. by split. Qed.

Lemma safe_bind {A B} (m : Res A) (f : A → Res B) :
  safe m → (∀ a, m = Ok a → safe (f a)) → safe (m ≫= f).
Proof.
  intros [Hf Hv] Hk. destruct m as [a|e|]; simpl; [by apply Hk| |done].
  split; [done|congruence].
Qed.

Create HintDb safe.

Ltac safe_step :=
  lazymatch goal with
  | |- safe (Ok _) => apply safe_Ok
  | |- safe (Raise KeyError) => apply safe_KeyError
  | |- safe (Raise IndexError) => apply safe_IndexError
  | |- safe (_ ≫= _) => apply safe_bind; [|intros ? _; cbv beta]
  | |- safe (match ?x with _ => _ end) => destruct x
  | |- _ => solve [eauto with safe]
  end.

Ltac safe_tac := repeat safe_step.

Lemma safe_str_index word i : safe (str_index word i).
Proof. unfold str_index. safe_tac. Qed.

Lemma safe_get_domain doms var : safe (get_domain doms var).
Proof. unfold get_domain. safe_tac. Qed.

Lemma safe_get_overlap cw x y : safe (get_overlap cw x y).
Proof. unfold get_overlap. safe_tac. Qed.

#[export] Hint Resolve safe_str_index safe_get_domain safe_get_overlap : safe.

Lemma safe_consistent_found word_x i j dy : safe (consistent_found word_x i j dy).
Proof. induction dy; simpl; safe_tac. Qed.
#[export] Hint Resolve safe_consistent_found : safe.

Lemma safe_revise_scan doms y i j dx : safe (revise_scan doms y i j dx).
Proof. induction dx; simpl; safe_tac. Qed.
#[export] Hint Resolve safe_revise_scan : safe.

Lemma safe_revise cw doms x y : safe (revise cw doms x y).
Proof. unfold revise. safe_tac. Qed.
#[export] Hint Resolve safe_revise : safe.

Lemma safe_arcs_from cw v1 vs : safe (arcs_from cw v1 vs).
Proof. induction vs; simpl; safe_tac. Qed.
#[export] Hint Resolve safe_arcs_from : safe.

Lemma safe_all_arcs cw vs : safe (all_arcs cw vs).
Proof. induction vs; simpl; safe_tac. Qed.
#[export] Hint Resolve safe_all_arcs : safe.

Lemma safe_initial_queue cw arcs : safe (initial_queue cw arcs).
Proof. unfold initial_queue. safe_tac. Qed.
#[export] Hint Resolve safe_initial_queue : safe.

Lemma safe_check_pair cw var1 word1 var2 word2 :
  safe (check_pair cw var1 word1 var2 word2).
Proof. unfold check_pair. safe_tac. Qed.
#[export] Hint Resolve safe_check_pair : safe.

Lemma safe_check_inner cw var1 word1 items : safe (check_inner cw var1 word1 items).
Proof. induction items as [|[] ? ?]; simpl; safe_tac. Qed.
#[export] Hint Resolve safe_check_inner : safe.

Lemma safe_check_outer cw items all : safe (check_outer cw items all).
Proof. induction items as [|[] ? ?]; simpl; safe_tac. Qed.
#[export] Hint Resolve safe_check_outer : safe.

Lemma safe_consistent cw a : safe (consistent cw a).
Proof. unfold consistent. safe_tac. Qed.
#[export] Hint Resolve safe_consistent : safe.

Lemma safe_count_conflicts word i j dn count : safe (count_conflicts word i j dn count).
Proof. revert count. induction dn; intros; simpl; safe_tac. Qed.
#[export] Hint Resolve safe_count_conflicts : safe.

Lemma safe_count_neighbors cw doms var a word ns count :
  safe (count_neighbors cw doms var a word ns count).
Proof. revert count. induction ns; intros; simpl; safe_tac. Qed.
#[export] Hint Resolve safe_count_neighbors : safe.

Lemma safe_with_keys {A K} (f : A → Res K) l :
  (∀ x, safe (f x)) → safe (with_keys f l).
Proof. intros Hf. induction l; simpl; safe_tac. Qed.

Lemma safe_order_domain_values cw doms var a : safe (order_domain_values cw doms var a).
Proof.
  unfold order_domain_values, sorted_by_key. safe_tac.
  apply safe_with_keys. intros. unfold count_eliminated_values. safe_tac.
Qed.
#[export] Hint Resolve safe_order_domain_values : safe.

Lemma safe_sort_key cw doms var : safe (sort_key cw doms var).
Proof. unfold sort_key. safe_tac. Qed.
#[export] Hint Resolve safe_sort_key : safe.

Lemma safe_min_scan cw doms best kbest rest : safe (min_scan cw doms best kbest rest).
Proof. revert best kbest. induction rest; intros; simpl; safe_tac. Qed.
#[export] Hint Resolve safe_min_scan : safe.

Lemma safe_dict_del a var : safe (dict_del a var).
Proof. unfold dict_del. safe_tac. Qed.
#[export] Hint Resolve safe_dict_del : safe.

(** [select_unassigned_variable] raises [ValueError] only when no variable
    is left. *)
Lemma safe_select_unassigned_variable cw doms a :
  unassigned_vars cw a ≠ [] → safe (select_unassigned_variable cw doms a).
Proof.
  unfold select_unassigned_variable.
  destruct (unassigned_vars cw a); [done|]. intros _. safe_tac.
Qed.

Lemma select_unassigned_variable_no_fuel cw doms a :
  select_unassigned_variable cw doms a ≠ OutOfFuel.
Proof.
  unfold select_unassigned_variable.
  destruct (unassigned_vars cw a); [done|].
  assert (safe (sort_key cw doms v ≫= λ k, min_scan cw doms v k l)) as [? ?]
    by safe_tac. done.
Qed.

(** ** The dictionary [assignment] *)

Lemma keys_app a1 a2 : keys (a1 ++ a2) = keys a1 ++ keys a2.
Proof. unfold keys. by rewrite fmap_app. Qed.

Lemma dict_set_fresh a var value :
  var ∉ keys a → dict_set a var value = a ++ [(var, value)].
Proof. intros Hvar. unfold dict_set. by rewrite decide_False. Qed.

Lemma dict_del_fresh a var value :
  var ∉ keys a → dict_del (a ++ [(var, value)]) var = Ok a.
Proof.
  intros Hvar. unfold dict_del. rewrite decide_True.
  - f_equal. rewrite filter_app, filter_cons_False, filter_nil, app_nil_r
      by (simpl; tauto).
    apply filter_all. intros [k v] Hk Heq. simpl in Heq. apply Hvar.
    unfold keys. apply list_elem_of_fmap. exists (k, v). by split.
  - rewrite keys_app. apply elem_of_app. right. by left.
Qed.

Lemma well_keyed_nil cw : well_keyed cw [].
Proof. split; [constructor|]. intros v Hv. by apply elem_of_nil in Hv. Qed.

Lemma well_keyed_snoc cw a var value :
  well_keyed cw a → var ∈ unassigned_vars cw a →
  well_keyed cw (a ++ [(var, value)]).
Proof.
  intros [Hnd Hsub] [Hna Hvar]%elem_of_unassigned_vars.
  unfold well_keyed. rewrite keys_app.
  split.
  - apply NoDup_app. split; [done|]. split; [|apply NoDup_singleton].
    intros v Hv ->%list_elem_of_singleton. done.
  - intros v [Hv| ->%list_elem_of_singleton]%elem_of_app; [by apply Hsub|done].
Qed.

Lemma unassigned_vars_snoc cw a var value :
  unassigned_vars cw (a ++ [(var, value)])
  = filter (λ v, v ≠ var) (unassigned_vars cw a).
Proof.
  unfold unassigned_vars. rewrite list_filter_filter.
  apply list_filter_iff. intros v. rewrite keys_app, not_elem_of_app.
  simpl. rewrite list_elem_of_singleton. tauto.
Qed.

Lemma unassigned_vars_snoc_length cw a var value :
  var ∈ unassigned_vars cw a →
  length (unassigned_vars cw (a ++ [(var, value)])) < length (unassigned_vars cw a).
Proof.
  intros Hvar. rewrite unassigned_vars_snoc.
  apply (length_filter_lt _ _ var); [done|]. by intros Hne.
Qed.

(** A dictionary of distinct variables that is not complete leaves a
    variable unassigned. *)
Lemma incomplete_unassigned cw a :
  NoDup (variables cw) → well_keyed cw a →
  assignment_complete cw a = false →
  ∃ u, u ∈ variables cw ∧ u ∉ keys a.
Proof.
  intros Hnd [Hka Hsub] Hc. unfold assignment_complete in Hc.
  apply bool_decide_eq_false in Hc.
  destruct (decide (Forall (λ u, u ∈ keys a) (variables cw))) as [Hall|Hex].
  - exfalso. apply Hc.
    assert (length (keys a) = length a) as <- by apply length_fmap.
    apply Nat.le_antisymm.
    + by apply submseteq_length, NoDup_submseteq.
    + apply submseteq_length, NoDup_submseteq; [done|].
      intros u Hu. rewrite Forall_forall in Hall. by apply Hall.
  - apply not_Forall_Exists in Hex; [|apply _].
    apply Exists_exists in Hex as (u & Hu & Hn). by exists u.
Qed.

(** ** The search *)

Section search.
Context (cw : Crossword) (rec : World → Res (option Assignment * World)).

Lemma try_value_inv var value w r w' :
  var ∉ keys (assignment w) →
  try_value cw rec var value w = Ok (r, w') →
  ∃ ok, consistent cw (assignment w ++ [(var, value)]) = Ok ok ∧
    let w1 := set_assignment w (assignment w ++ [(var, value)]) in
    (if ok
     then ∃ r1 w2, rec w1 = Ok (r1, w2) ∧
            match r1 with
            | Some res => r = Some res ∧ w' = w2
            | None =>
                r = None ∧
                ∃ a, dict_del (assignment w2) var = Ok a ∧
                     w' = set_assignment w2 a
            end
     else r = None ∧ w' = set_assignment w1 (assignment w)).
Proof.
  intros Hvar. unfold try_value. rewrite dict_set_fresh by done.
  cbn [assignment set_assignment].
  intros (ok & Hok & Hrest)%bind_Ok. exists ok. split; [done|].
  destruct ok.
  - apply bind_Ok in Hrest as ([r1 w2] & Hrec & Hrest).
    exists r1, w2. split; [done|]. destruct r1 as [res|].
    + by injection Hrest as <- <-.
    + apply bind_Ok in Hrest as (a & Hdel & [= <- <-]). eauto.
  - simpl in Hrest. rewrite dict_del_fresh in Hrest by done.
    simpl in Hrest. by injection Hrest as <- <-.
Qed.

Lemma try_value_restores var value w r w' :
  restores rec → var ∉ keys (assignment w) →
  try_value cw rec var value w = Ok (r, w') →
  domains w' = domains w ∧ (r = None → assignment w' = assignment w).
Proof.
  intros Hrec Hvar (ok & _ & Hcases)%try_value_inv; [|done].
  destruct ok.
  - destruct Hcases as (r1 & w2 & Hcall & Hr1). apply Hrec in Hcall as [Hd Ha].
    destruct r1 as [res|].
    + destruct Hr1 as [-> ->]. by split.
    + destruct Hr1 as (-> & a & Hdel & ->). simpl in *.
      rewrite Ha, dict_del_fresh in Hdel by done.
      injection Hdel as <-. by split.
  - destruct Hcases as [-> ->]. by split.
Qed.

Lemma try_values_restores var vals w r w' :
  restores rec → var ∉ keys (assignment w) →
  try_values cw rec var vals w = Ok (r, w') →
  domains w' = domains w ∧ (r = None → assignment w' = assignment w).
Proof.
  intros Hrec. revert w. induction vals as [|value vals IH]; intros w Hvar; simpl.
  - intros [= <- <-]. by split.
  - intros ([r1 w1] & Htry & Hrest)%bind_Ok.
    apply try_value_restores in Htry as [Hd Ha]; [|done..].
    destruct r1 as [res|].
    + injection Hrest as <- <-. by split.
    + specialize (Ha eq_refl). apply IH in Hrest as [Hd' Ha'].
      * split; [congruence|]. intros Hr. rewrite Ha'; done.
      * by rewrite Ha.
Qed.
End search.

Lemma backtrack_rec_restores cw fuel : restores (backtrack_rec cw fuel).
Proof.
  induction fuel as [|fuel IH]; intros w r w'; simpl; [done|].
  destruct (assignment_complete cw (assignment w)).
  - intros [= <- <-]. by split.
  - intros (var & Hsel & (vals & _ & Htry)%bind_Ok)%bind_Ok.
    apply select_unassigned_variable_elem, elem_of_unassigned_vars in Hsel as [Hvar _].
    by apply try_values_restores in Htry.
Qed.

(** C5.  A candidate that fails leaves the dictionary [assignment] as it
    was before the candidate was tried, a call of [backtrack] that returns
    [None] leaves [assignment] as it was at entry, and neither changes any
    domain of [self.domains]. *)
Theorem backtrack_failure_restores (cw : Crossword) :
  (∀ fuel var value w w',
     select_unassigned_variable cw (domains w) (assignment w) = Ok var →
     try_value cw (backtrack_rec cw fuel) var value w = Ok (None, w') →
     assignment w' = assignment w ∧ domains w' = domains w) ∧
  (∀ w w', backtrack cw w = Ok (None, w') →
     assignment w' = assignment w ∧ domains w' = domains w).
Proof.
  split.
  - intros fuel var value w w' Hsel Htry.
    apply select_unassigned_variable_elem, elem_of_unassigned_vars in Hsel as [Hvar _].
    apply try_value_restores in Htry as [? ?];
      [auto|apply backtrack_rec_restores|done].
  - intros w w' Hb. apply backtrack_rec_restores in Hb as [? ?]. auto.
Qed.

(** ** The Consistency Checker *)

Lemma remove_dups_length_le {A} `{EqDecision A} (l : list A) :
  length (remove_dups l) ≤ length l.
Proof.
  induction l as [|x l IH]; simpl; [done|].
  destruct (decide_rel elem_of x l); simpl; lia.
Qed.

Lemma remove_dups_length_NoDup {A} `{EqDecision A} (l : list A) :
  length (remove_dups l) = length l → NoDup l.
Proof.
  induction l as [|x l IH]; simpl; [constructor|].
  pose proof (remove_dups_length_le l).
  destruct (decide_rel elem_of x l); simpl; [lia|].
  intros [=]. constructor; auto.
Qed.

Lemma check_pair_true cw var1 word1 var2 word2 i j :
  check_pair cw var1 word1 var2 word2 = Ok true →
  var1 ≠ var2 → overlaps cw !! (var1, var2) = Some (Some (i, j)) →
  agree i j word1 word2.
Proof.
  intros Hc Hne Ho. unfold check_pair, get_overlap in Hc.
  rewrite decide_True, Ho in Hc by done. simpl in Hc.
  apply bind_Ok in Hc as (c1 & Hc1%str_index_Ok & Hc).
  apply bind_Ok in Hc as (c2 & Hc2%str_index_Ok & [= Heq]).
  apply bool_decide_eq_true in Heq as ->. by exists c2.
Qed.

Lemma check_inner_true cw var1 word1 items var2 word2 :
  check_inner cw var1 word1 items = Ok true →
  (var2, word2) ∈ items → check_pair cw var1 word1 var2 word2 = Ok true.
Proof.
  induction items as [|[v w] items IH]; simpl; [by intros _ ?%elem_of_nil|].
  intros (ok & Hok & Hrest)%bind_Ok Hin. destruct ok; [|done].
  apply elem_of_cons in Hin as [[= -> ->]|Hin]; auto.
Qed.

Lemma check_outer_true cw items all var1 word1 :
  check_outer cw items all = Ok true →
  (var1, word1) ∈ items → check_inner cw var1 word1 all = Ok true.
Proof.
  induction items as [|[v w] items IH]; simpl; [by intros _ ?%elem_of_nil|].
  intros (ok & Hok & Hrest)%bind_Ok Hin. destruct ok; [|done].
  apply elem_of_cons in Hin as [[= -> ->]|Hin]; auto.
Qed.

Lemma consistent_true cw a :
  consistent cw a = Ok true → satisfies_checker cw a.
Proof.
  unfold consistent. case_decide as Hlen; [done|].
  destruct (lengths_ok a) eqn:Hl; simpl; [|done]. intros Hc.
  split; [|split].
  - apply remove_dups_length_NoDup. by symmetry.
  - unfold lengths_ok in Hl. rewrite forallb_forall in Hl.
    apply Forall_forall. intros item Hitem%list_elem_of_In.
    by apply Hl, bool_decide_eq_true in Hitem.
  - intros v1 w1 v2 w2 i j H1 H2 Hne Ho.
    apply (check_pair_true cw v1 w1 v2 w2); [|done..].
    eapply check_inner_true; [|done]. by eapply check_outer_true.
Qed.

Lemma consistent_nil cw : consistent cw [] = Ok true.
Proof. done. Qed.

(** ** Soundness of the search *)

Section invariant.
Context (cw : Crossword) (Inv : Assignment → Prop).
Hypothesis Inv_step : ∀ a var value,
  Inv a → var ∈ unassigned_vars cw a →
  consistent cw (a ++ [(var, value)]) = Ok true →
  Inv (a ++ [(var, value)]).

Lemma try_values_returns_inv rec var vals w r w' :
  restores rec → returns_inv cw Inv rec →
  Inv (assignment w) → var ∈ unassigned_vars cw (assignment w) →
  try_values cw rec var vals w = Ok (Some r, w') →
  Inv r ∧ assignment_complete cw r = true.
Proof using Inv_step.
  intros Hres Hrec. revert w.
  induction vals as [|value vals IH]; intros w Hinv Hvar; simpl; [done|].
  pose proof Hvar as [Hfresh _]%elem_of_unassigned_vars.
  intros ([r1 w1] & Htry & Hrest)%bind_Ok.
  pose proof (try_value_restores _ _ _ _ _ _ _ Hres Hfresh Htry) as [_ Ha].
  destruct r1 as [res|].
  - injection Hrest as <- <-.
    apply try_value_inv in Htry as (ok & Hok & Hcases); [|done].
    destruct ok; [|by destruct Hcases].
    destruct Hcases as (r1 & w2 & Hcall & Hr1).
    destruct r1 as [res'|]; [|by destruct Hr1].
    destruct Hr1 as [[= ->] ->].
    apply Hrec in Hcall; [done|]. simpl. by apply Inv_step.
  - specialize (Ha eq_refl). apply IH in Hrest; [done|by rewrite Ha..].
Qed.

Lemma backtrack_rec_returns_inv fuel : returns_inv cw Inv (backtrack_rec cw fuel).
Proof using Inv_step.
  induction fuel as [|fuel IH]; intros w r w' Hinv; simpl; [done|].
  destruct (assignment_complete cw (assignment w)) eqn:Hc.
  - by intros [= <- <-].
  - intros (var & Hsel & (vals & _ & Htry)%bind_Ok)%bind_Ok.
    apply select_unassigned_variable_elem in Hsel.
    eapply try_values_returns_inv in Htry;
      [done|apply backtrack_rec_restores|done..].
Qed.
End invariant.

Lemma well_keyed_complete_covers cw a :
  NoDup (variables cw) → well_keyed cw a →
  assignment_complete cw a = true → covers cw a.
Proof.
  intros Hnd [Hka Hsub] Hc%bool_decide_eq_true. split; [done|].
  intros v. split; [apply Hsub|]. intros Hv.
  destruct (decide (v ∈ keys a)) as [|Hn]; [done|]. exfalso.
  assert (length (v :: keys a) ≤ length (variables cw)) as Hle.
  { apply submseteq_length, NoDup_submseteq; [by constructor|].
    intros u [->|Hu]%elem_of_cons; [done|by apply Hsub]. }
  simpl in Hle. unfold keys in Hle. rewrite length_fmap in Hle. lia.
Qed.

(** Any dictionary that the search returns, from a start that satisfies the
    checker, is complete and satisfies the checker. *)
Lemma backtrack_rec_sound cw fuel w r w' :
  well_keyed cw (assignment w) → consistent cw (assignment w) = Ok true →
  backtrack_rec cw fuel w = Ok (Some r, w') →
  well_keyed cw r ∧ consistent cw r = Ok true ∧ assignment_complete cw r = true.
Proof.
  intros Hk Hc Hb.
  apply (backtrack_rec_returns_inv cw
           (λ a, well_keyed cw a ∧ consistent cw a = Ok true)) in Hb.
  - tauto.
  - intros a var value [Hka _] Hvar Hcons. split; [|done].
    by apply well_keyed_snoc.
  - done.
Qed.

Lemma solve_inv cw doms r w :
  solve cw doms = Ok (r, w) →
  ∃ b doms', ac3 cw (enforce_node_consistency doms) None = Ok (b, doms') ∧
             backtrack cw (mkWorld doms' [] 0) = Ok (r, w).
Proof.
  unfold solve. intros ([b doms'] & Hac3 & Hb)%bind_Ok. by exists b, doms'.
Qed.

(** C1.  An assignment returned by [solve] has exactly one entry for every
    variable of the puzzle and passes the Consistency Checker: its words are
    pairwise distinct, each has the length of its variable, and any two
    variables with a defined overlap agree at its offsets. *)
Theorem solve_sound (cw : Crossword) (doms : Domains) (r : Assignment) (w : World) :
  NoDup (variables cw) →
  solve cw doms = Ok (Some r, w) →
  covers cw r ∧ consistent cw r = Ok true ∧ satisfies_checker cw r.
Proof.
  intros Hnd (b & doms' & _ & Hb)%solve_inv.
  apply backtrack_rec_sound in Hb as (Hk & Hc & Hcomplete);
    [|apply well_keyed_nil|apply consistent_nil].
  split; [by apply well_keyed_complete_covers|].
  split; [done|by apply consistent_true].
Qed.

(** ** Termination of [ac3] *)

Lemma domains_size_delete (doms : Domains) x dx :
  doms !! x = Some dx →
  domains_size doms = length dx + domains_size (delete x doms).
Proof.
  intros Hx. unfold domains_size.
  apply (map_fold_delete_L (λ _ d acc, length d + acc)); [intros; lia|done].
Qed.

Lemma domains_size_insert (doms : Domains) x dx dx' :
  doms !! x = Some dx →
  domains_size (<[x := dx']> doms) + length dx = domains_size doms + length dx'.
Proof.
  intros Hx. rewrite (domains_size_delete doms x dx) by done.
  rewrite <- insert_delete_eq. unfold domains_size at 1.
  rewrite (map_fold_insert_L (λ _ d acc, length d + acc));
    [|intros; lia|apply lookup_delete_eq].
  fold (domains_size (delete x doms)). lia.
Qed.

Lemma revise_scan_inv doms y i j dx to_remove revised :
  revise_scan doms y i j dx = Ok (to_remove, revised) →
  to_remove ⊆ dx ∧ revised = bool_decide (to_remove ≠ []).
Proof.
  revert to_remove revised.
  induction dx as [|word_x dx IH]; intros to_remove revised; simpl.
  - intros [= <- <-]. split; [done|]. by rewrite bool_decide_eq_false_2 by auto.
  - intros (dy & _ & (found & _ & ([tr rv] & Hrec & Hres)%bind_Ok)%bind_Ok)%bind_Ok.
    destruct (IH _ _ Hrec) as [Hsub ->]. destruct found.
    + injection Hres as <- <-. split; [|done]. by apply list_subseteq_cons.
    + injection Hres as <- <-. split; [|done].
      intros w [->|Hw]%elem_of_cons; [by left|]. right. by apply Hsub.
Qed.

(** [revise] either changes nothing and returns [False], or shrinks the
    domain of [x], leaves the rest alone and returns [True]. *)
Lemma revise_inv cw doms x y revised doms' :
  revise cw doms x y = Ok (revised, doms') →
  (revised = false ∧ doms' = doms) ∨
  (revised = true ∧ ∃ dx dx',
     doms !! x = Some dx ∧ doms' = <[x := dx']> doms ∧
     dx' ⊆ dx ∧ length dx' < length dx).
Proof.
  unfold revise. intros ([[i j]|] & Ho & Hrest)%bind_Ok.
  - apply bind_Ok in Hrest as (dx & Hx%get_domain_Ok & Hrest).
    apply bind_Ok in Hrest as ([to_remove rv] & Hscan & [= <- <-]).
    apply revise_scan_inv in Hscan as [Hsub ->].
    rewrite set_remove_all_filter. destruct to_remove as [|w to_remove].
    + left. split; [done|]. rewrite filter_all by (intros; apply not_elem_of_nil).
      by apply insert_id.
    + right. split; [done|]. exists dx. eexists. split; [done|]. split; [done|].
      split.
      * intros u Hu%list_elem_of_filter. tauto.
      * apply (length_filter_lt _ _ w); [apply Hsub; by left|].
        intros Hn. apply Hn. by left.
  - injection Hrest as <- <-. by left.
Qed.

Lemma revise_size cw doms x y revised doms' :
  revise cw doms x y = Ok (revised, doms') →
  if revised then domains_size doms' < domains_size doms
  else doms' = doms.
Proof.
  intros [[-> ->]|(-> & dx & dx' & Hx & -> & _ & Hlt)]%revise_inv; [done|].
  pose proof (domains_size_insert doms x dx dx' Hx). lia.
Qed.

Lemma neighbors_length cw x : length (neighbors cw x) ≤ length (variables cw).
Proof. apply length_filter. Qed.

Lemma ac3_loop_safe cw fuel doms queue :
  length queue + domains_size doms * length (variables cw) < fuel →
  safe (ac3_loop cw fuel doms queue).
Proof.
  revert doms queue. induction fuel as [|fuel IH]; intros doms queue Hfuel; [lia|].
  simpl. destruct queue as [|[x y] queue]; [apply safe_Ok|].
  apply safe_bind; [apply safe_revise|]. intros [revised doms'] Hrev.
  apply revise_size in Hrev. destruct revised.
  - apply safe_bind; [apply safe_get_domain|]. intros dx _.
    case_decide; [apply safe_Ok|]. apply IH.
    rewrite length_app, length_fmap. simpl in Hfuel.
    pose proof (length_filter (λ k, k ≠ y) (neighbors cw x)).
    pose proof (neighbors_length cw x). nia.
  - subst doms'. apply IH. simpl in Hfuel. lia.
Qed.

Lemma ac3_loop_more_fuel cw fuel extra doms queue :
  ac3_loop cw fuel doms queue ≠ OutOfFuel →
  ac3_loop cw (fuel + extra) doms queue = ac3_loop cw fuel doms queue.
Proof.
  revert doms queue. induction fuel as [|fuel IH]; intros doms queue; [done|].
  simpl. destruct queue as [|[x y] queue]; [done|].
  destruct (revise cw doms x y) as [[revised doms']| |]; simpl; [|done..].
  destruct revised; [|apply IH].
  destruct (get_domain doms' x); simpl; [|done..].
  case_decide; [done|apply IH].
Qed.

Lemma ac3_safe cw doms arcs : safe (ac3 cw doms arcs).
Proof.
  unfold ac3. apply safe_bind; [apply safe_initial_queue|]. intros queue _.
  apply ac3_loop_safe. unfold ac3_fuel. lia.
Qed.

(** C9.  The worklist loop of [ac3] terminates, from any domains and any
    initial list of arcs, and so does [ac3] with the default arcs: the loop
    comes to an end within [ac3_fuel] iterations, and more iterations do not
    change what it returns.  A revision that changes a domain makes the
    total number of candidates strictly smaller. *)
Theorem ac3_terminates (cw : Crossword) (doms : Domains) :
  (∀ queue extra,
     ac3_loop cw (ac3_fuel cw doms queue) doms queue ≠ OutOfFuel ∧
     ac3_loop cw (ac3_fuel cw doms queue + extra) doms queue
     = ac3_loop cw (ac3_fuel cw doms queue) doms queue) ∧
  (∀ arcs, ac3 cw doms arcs ≠ OutOfFuel) ∧
  (∀ x y doms', revise cw doms x y = Ok (true, doms') →
     domains_size doms' < domains_size doms).
Proof.
  split; [|split].
  - intros queue extra.
    assert (ac3_loop cw (ac3_fuel cw doms queue) doms queue ≠ OutOfFuel) as Hne.
    { apply ac3_loop_safe. unfold ac3_fuel. lia. }
    split; [done|by apply ac3_loop_more_fuel].
  - intros arcs. apply ac3_safe.
  - intros x y doms' Hrev. by apply revise_size in Hrev.
Qed.

(** ** Which failures the search can end in *)

Section avoid.
Context (good : ∀ A, Res A → Prop).
Hypothesis good_safe : ∀ A (m : Res A), safe m → good A m.
Hypothesis good_bind : ∀ A B (m : Res A) (f : A → Res B),
  good A m → (∀ a, m = Ok a → good B (f a)) → good B (m ≫= f).

Context (cw : Crossword) (rec : World → Res (option Assignment * World)).
Context (Q : Assignment → Prop).
Hypothesis rec_restores : restores rec.
Hypothesis rec_good : ∀ w, Q (assignment w) → good _ (rec w).

Lemma try_value_good var value w :
  var ∉ keys (assignment w) → Q (assignment w ++ [(var, value)]) →
  good _ (try_value cw rec var value w).
Proof using good_safe good_bind rec_good.
  intros Hvar HQ. unfold try_value. rewrite dict_set_fresh by done.
  apply good_bind; [apply good_safe, safe_consistent|]. intros ok _.
  apply good_bind.
  { destruct ok; [by apply rec_good|apply good_safe, safe_Ok]. }
  intros [[res|] w1] _; [apply good_safe, safe_Ok|].
  apply good_bind; [apply good_safe, safe_dict_del|].
  intros a _. apply good_safe, safe_Ok.
Qed.

Lemma try_values_good var vals w :
  var ∉ keys (assignment w) →
  (∀ value, Q (assignment w ++ [(var, value)])) →
  good _ (try_values cw rec var vals w).
Proof using good_safe good_bind rec_good rec_restores.
  revert w. induction vals as [|value vals IH]; intros w Hvar HQ; simpl.
  - apply good_safe, safe_Ok.
  - apply good_bind; [by apply try_value_good|].
    intros [[res|] w1] Htry; [apply good_safe, safe_Ok|].
    apply try_value_restores in Htry as [_ Ha]; [|done..].
    specialize (Ha eq_refl). apply IH; by rewrite Ha.
Qed.
End avoid.

Lemma no_fuel_bind {A B} (m : Res A) (f : A → Res B) :
  m ≠ OutOfFuel → (∀ a, m = Ok a → f a ≠ OutOfFuel) → m ≫= f ≠ OutOfFuel.
Proof. intros Hm Hf. destruct m; simpl; [by apply Hf|done..]. Qed.

Lemma no_ValueError_bind {A B} (m : Res A) (f : A → Res B) :
  m ≠ Raise ValueError → (∀ a, m = Ok a → f a ≠ Raise ValueError) →
  m ≫= f ≠ Raise ValueError.
Proof. intros Hm Hf. destruct m; simpl; [by apply Hf|congruence|done]. Qed.

(** The search does not run out of fuel: its depth is bounded by the number
    of unassigned variables. *)
Lemma backtrack_rec_no_fuel cw fuel w :
  length (unassigned_vars cw (assignment w)) < fuel →
  backtrack_rec cw fuel w ≠ OutOfFuel.
Proof.
  revert w. induction fuel as [|fuel IH]; intros w Hfuel; [lia|]. simpl.
  destruct (assignment_complete cw (assignment w)); [done|].
  apply no_fuel_bind; [apply select_unassigned_variable_no_fuel|].
  intros var Hsel%select_unassigned_variable_elem.
  apply no_fuel_bind; [apply safe_order_domain_values|]. intros vals _.
  apply (try_values_good (λ A m, m ≠ OutOfFuel)) with
    (Q := λ a, length (unassigned_vars cw a) < fuel).
  - by intros A m [? ?].
  - intros. by apply no_fuel_bind.
  - apply backtrack_rec_restores.
  - intros w1 Hw1. by apply IH.
  - simpl. by apply elem_of_unassigned_vars in Hsel as [? _].
  - intros value. simpl.
    pose proof (unassigned_vars_snoc_length cw (assignment w) var value Hsel). lia.
Qed.

Lemma backtrack_no_fuel cw w : backtrack cw w ≠ OutOfFuel.
Proof. apply backtrack_rec_no_fuel. lia. Qed.

(** From a dictionary of distinct variables of the puzzle, the search never
    takes the minimum of an empty list. *)
Lemma backtrack_rec_no_ValueError cw fuel w :
  NoDup (variables cw) → well_keyed cw (assignment w) →
  backtrack_rec cw fuel w ≠ Raise ValueError.
Proof.
  intros Hnd. revert w. induction fuel as [|fuel IH]; intros w Hk; [done|]. simpl.
  destruct (assignment_complete cw (assignment w)) eqn:Hc; [done|].
  destruct (incomplete_unassigned cw (assignment w) Hnd Hk Hc) as (u & Hu & Hna).
  apply no_ValueError_bind.
  { apply safe_select_unassigned_variable. intros Hnil.
    assert (u ∈ unassigned_vars cw (assignment w)) as Hin
      by by apply elem_of_unassigned_vars.
    rewrite Hnil in Hin. by apply elem_of_nil in Hin. }
  intros var Hsel%select_unassigned_variable_elem.
  apply no_ValueError_bind; [apply safe_order_domain_values|]. intros vals _.
  apply (try_values_good (λ A m, m ≠ Raise ValueError)) with (Q := well_keyed cw).
  - by intros A m [? ?].
  - intros. by apply no_ValueError_bind.
  - apply backtrack_rec_restores.
  - intros w1 Hw1. by apply IH.
  - simpl. by apply elem_of_unassigned_vars in Hsel as [? _].
  - intros value. simpl. by apply well_keyed_snoc.
Qed.

(** [solve] does not run out of fuel: the bounds of [ac3] and of
    [backtrack] are enough. *)
Lemma solve_no_fuel cw doms : solve cw doms ≠ OutOfFuel.
Proof.
  unfold solve. apply no_fuel_bind; [apply ac3_safe|].
  intros [b doms'] _. apply backtrack_no_fuel.
Qed.

(** C10.  When the keys of the dictionary are a strict subset of the
    variables, some variable is unassigned and [select_unassigned_variable]
    returns one: the minimum is taken over a non-empty list.  [backtrack]
    calls it only after [assignment_complete] returned [False], which for a
    dictionary of distinct variables of the puzzle means that a variable is
    left, so the search started by [solve] never raises the [ValueError] of
    an empty minimum. *)
Theorem select_unassigned_variable_total (cw : Crossword) :
  (∀ doms a,
     domains_cover cw doms →
     keys a ⊆ variables cw → (∃ u, u ∈ variables cw ∧ u ∉ keys a) →
     unassigned_vars cw a ≠ [] ∧
     ∃ v, select_unassigned_variable cw doms a = Ok v ∧
          v ∈ variables cw ∧ v ∉ keys a) ∧
  (∀ a, NoDup (variables cw) → well_keyed cw a →
     assignment_complete cw a = false →
     keys a ⊆ variables cw ∧ ∃ u, u ∈ variables cw ∧ u ∉ keys a) ∧
  (∀ fuel w, NoDup (variables cw) → well_keyed cw (assignment w) →
     backtrack_rec cw fuel w ≠ Raise ValueError) ∧
  (∀ doms, NoDup (variables cw) → solve cw doms ≠ Raise ValueError).
Proof.
  split; [|split; [|split]].
  - intros doms a Hcover Hsub Hex. split.
    + destruct Hex as (u & Hu & Hna). intros Hnil.
      assert (u ∈ unassigned_vars cw a) as Hin by by apply elem_of_unassigned_vars.
      rewrite Hnil in Hin. by apply elem_of_nil in Hin.
    + destruct (select_unassigned_variable_min cw doms a) as (v & Hv & _).
      * unfold domains_cover in Hcover. rewrite Forall_forall in Hcover.
        apply Forall_forall. intros v [_ Hv]%elem_of_unassigned_vars. auto.
      * destruct Hex as (u & Hu & Hna). intros Hnil.
        assert (u ∈ unassigned_vars cw a) as Hin
          by by apply elem_of_unassigned_vars.
        rewrite Hnil in Hin. by apply elem_of_nil in Hin.
      * exists v. split; [done|].
        by apply select_unassigned_variable_elem, elem_of_unassigned_vars
          in Hv as [? ?].
  - intros a Hnd Hk Hc. split; [apply Hk|by apply incomplete_unassigned].
  - intros fuel w. apply backtrack_rec_no_ValueError.
  - intros doms Hnd. unfold solve. apply no_ValueError_bind; [apply ac3_safe|].
    intros [b doms'] _. apply backtrack_rec_no_ValueError; [done|].
    apply well_keyed_nil.
Qed.

(** ** Narrowing of domains *)

Lemma narrowed_refl doms : narrowed doms doms.
Proof. intros v. destruct (doms !! v) as [d|] eqn:Hd; [|done]. by exists d. Qed.

Lemma narrowed_trans doms1 doms2 doms3 :
  narrowed doms1 doms2 → narrowed doms2 doms3 → narrowed doms1 doms3.
Proof.
  intros H12 H23 v. specialize (H12 v). specialize (H23 v).
  destruct (doms1 !! v) as [d1|].
  - destruct H12 as (d2 & Hd2 & Hsub2). rewrite Hd2 in H23.
    destruct H23 as (d3 & Hd3 & Hsub3). exists d3. split; [done|].
    by transitivity d2.
  - by rewrite H12 in H23.
Qed.

Lemma narrowed_insert (doms : Domains) x dx dx' :
  doms !! x = Some dx → dx' ⊆ dx → narrowed doms (<[x := dx']> doms).
Proof.
  intros Hx Hsub v. destruct (decide (v = x)) as [->|Hne].
  - rewrite Hx, lookup_insert_eq. by exists dx'.
  - rewrite lookup_insert_ne by done.
    destruct (doms !! v) as [d|]; [|done]. by exists d.
Qed.

Lemma narrowed_cover cw doms doms' :
  narrowed doms doms' → domains_cover cw doms → domains_cover cw doms'.
Proof.
  intros Hn Hc. unfold domains_cover in *. rewrite Forall_forall in *.
  intros v Hv. destruct (Hc v Hv) as [d Hd]. specialize (Hn v).
  rewrite Hd in Hn. destruct Hn as (d' & -> & _). by eexists.
Qed.

Lemma narrowed_node_consistent doms doms' :
  narrowed doms doms' → node_consistent doms → node_consistent doms'.
Proof.
  intros Hn Hc v d' Hd'. specialize (Hn v).
  destruct (doms !! v) as [d|] eqn:Hd; [|congruence].
  destruct Hn as (d'' & Hd'' & Hsub). assert (d'' = d') as -> by congruence.
  specialize (Hc v d Hd). rewrite Forall_forall in *. auto.
Qed.

Lemma narrowed_empty doms doms' x :
  narrowed doms doms' → doms !! x = Some [] → doms' !! x = Some [].
Proof.
  intros Hn Hx. specialize (Hn x). rewrite Hx in Hn.
  destruct Hn as (d' & -> & Hsub). f_equal.
  destruct d' as [|w d']; [done|].
  assert (w ∈ @nil string) as Hw by (apply Hsub; by left).
  by apply elem_of_nil in Hw.
Qed.

Lemma revise_narrowed cw doms x y revised doms' :
  revise cw doms x y = Ok (revised, doms') → narrowed doms doms'.
Proof.
  intros [[_ ->]|(_ & dx & dx' & Hx & -> & Hsub & _)]%revise_inv.
  - apply narrowed_refl.
  - by apply narrowed_insert with dx.
Qed.

Lemma ac3_loop_narrowed cw fuel doms queue b doms' :
  ac3_loop cw fuel doms queue = Ok (b, doms') → narrowed doms doms'.
Proof.
  revert doms queue. induction fuel as [|fuel IH]; intros doms queue; [done|].
  simpl. destruct queue as [|[x y] queue].
  - intros [= <- <-]. apply narrowed_refl.
  - intros ([revised doms1] & Hrev%revise_narrowed & Hrest)%bind_Ok.
    apply narrowed_trans with doms1; [done|]. destruct revised.
    + apply bind_Ok in Hrest as (dx & _ & Hrest). case_decide.
      * injection Hrest as <- <-. apply narrowed_refl.
      * by apply IH in Hrest.
    + by apply IH in Hrest.
Qed.

Lemma enforce_node_consistency_narrowed doms :
  narrowed doms (enforce_node_consistency doms).
Proof.
  intros v. rewrite lookup_enforce_node_consistency.
  destruct (doms !! v) as [d|]; [|done]. eexists. split; [done|].
  intros w Hw%list_elem_of_filter. tauto.
Qed.

Lemma enforce_node_consistency_node_consistent doms :
  node_consistent (enforce_node_consistency doms).
Proof.
  intros v d. rewrite lookup_enforce_node_consistency.
  destruct (doms !! v) as [d0|]; [|done]. intros [= <-].
  apply Forall_forall. intros w Hw%list_elem_of_filter. tauto.
Qed.

Lemma enforce_node_consistency_id doms :
  node_consistent doms → enforce_node_consistency doms = doms.
Proof.
  intros Hc. apply map_eq. intros v. rewrite lookup_enforce_node_consistency.
  destruct (doms !! v) as [d|] eqn:Hd; [|done]. simpl. f_equal.
  apply filter_all. specialize (Hc v d Hd). rewrite Forall_forall in Hc. auto.
Qed.

Lemma init_domains_cover cw : domains_cover cw (init_domains cw).
Proof.
  apply Forall_forall. intros v Hv. unfold init_domains.
  apply elem_of_dom. rewrite dom_list_to_map_L.
  apply elem_of_list_to_set. rewrite <- list_fmap_compose.
  apply list_elem_of_fmap. by exists v.
Qed.

(** ** The default worklist *)

Lemma has_overlap_true cw x y :
  has_overlap cw x y ↔ ∃ o, overlaps cw !! (x, y) = Some (Some o).
Proof.
  unfold has_overlap. destruct (overlaps cw !! (x, y)) as [[o|]|]; split;
    try done; eauto; by intros [? ?].
Qed.

Lemma elem_of_neighbors cw x k :
  k ∈ neighbors cw x ↔ k ∈ variables cw ∧ k ≠ x ∧ has_overlap cw k x.
Proof. unfold neighbors. rewrite list_elem_of_filter. tauto. Qed.

Lemma arcs_from_inv cw v1 vs q :
  arcs_from cw v1 vs = Ok q →
  ∀ arc, arc ∈ q ↔ arc.1 = v1 ∧ arc.2 ∈ vs ∧ v1 ≠ arc.2 ∧ has_overlap cw v1 arc.2.
Proof.
  revert q. induction vs as [|v2 vs IH]; intros q; simpl.
  - intros [= <-] arc. rewrite elem_of_nil, elem_of_nil. tauto.
  - intros (keep & Hkeep & (arcs & Harcs & [= <-])%bind_Ok)%bind_Ok arc.
    specialize (IH _ Harcs arc).
    assert (keep = true ↔ v1 ≠ v2 ∧ has_overlap cw v1 v2) as Hk.
    { case_decide as Hne.
      - apply bind_Ok in Hkeep as (o & Ho%get_overlap_Ok & [= <-]).
        unfold has_overlap. rewrite Ho. destruct o.
        + split; [by split|]. intros _. by apply bool_decide_eq_true_2.
        + split; [|by intros [_ ?]]. intros Hb. by apply bool_decide_eq_true in Hb.
      - injection Hkeep as <-. split; [done|]. tauto. }
    rewrite elem_of_cons. destruct keep.
    + rewrite elem_of_cons, IH. destruct arc as [a b]. simpl. split.
      * intros [[= -> ->]|?]; [|tauto]. destruct Hk as [Hk _]. tauto.
      * intros (-> & [->|?] & ? & ?); [by left|]. right. tauto.
    + rewrite IH. destruct arc as [a b]. simpl. split; [tauto|].
      intros (-> & [->|?] & ? & ?); [|tauto]. destruct Hk as [_ Hk].
      by discriminate Hk.
Qed.

Lemma all_arcs_inv cw vs q :
  all_arcs cw vs = Ok q →
  ∀ arc, arc ∈ q ↔
    arc.1 ∈ vs ∧ arc.2 ∈ variables cw ∧ arc.1 ≠ arc.2 ∧ has_overlap cw arc.1 arc.2.
Proof.
  revert q. induction vs as [|v1 vs IH]; intros q; simpl.
  - intros [= <-] arc. rewrite elem_of_nil, elem_of_nil. tauto.
  - intros (row & Hrow & (arcs & Harcs & [= <-])%bind_Ok)%bind_Ok arc.
    rewrite elem_of_app, (arcs_from_inv _ _ _ _ Hrow), (IH _ Harcs), elem_of_cons.
    split.
    + intros [(<- & ? & ? & ?)|(? & ? & ? & ?)]; tauto.
    + intros ([->|?] & ? & ? & ?); tauto.
Qed.

Lemma initial_queue_default cw q :
  initial_queue cw None = Ok q → ∀ arc, arc ∈ q ↔ is_arc cw arc.
Proof. intros Hq arc. unfold is_arc. by rewrite (all_arcs_inv _ _ _ Hq). Qed.

(** ** When [ac3] reports failure *)

Lemma ac3_loop_false cw fuel doms queue doms' :
  Forall (λ arc, arc.1 ∈ variables cw) queue →
  ac3_loop cw fuel doms queue = Ok (false, doms') →
  ∃ x, x ∈ variables cw ∧ doms' !! x = Some [].
Proof.
  revert doms queue. induction fuel as [|fuel IH]; intros doms queue Hq; [done|].
  simpl. destruct queue as [|[x y] queue]; [done|].
  apply Forall_cons in Hq as [Hx Hq]. simpl in Hx.
  intros ([revised doms1] & Hrev & Hrest)%bind_Ok. destruct revised.
  - apply bind_Ok in Hrest as (dx & Hdx%get_domain_Ok & Hrest). case_decide as Hlen.
    + injection Hrest as <-. exists x. split; [done|].
      by apply nil_length_inv in Hlen as ->.
    + apply IH in Hrest; [done|]. apply Forall_app. split; [done|].
      apply Forall_forall. intros arc (k & -> & Hk)%list_elem_of_fmap.
      apply list_elem_of_filter in Hk as [_ Hk].
      by apply elem_of_neighbors in Hk as [? _].
  - by apply IH in Hrest.
Qed.

Lemma ac3_default_false cw doms doms' :
  ac3 cw doms None = Ok (false, doms') →
  ∃ x, x ∈ variables cw ∧ doms' !! x = Some [].
Proof.
  unfold ac3. intros (queue & Hq & Hloop)%bind_Ok.
  apply ac3_loop_false in Hloop; [done|].
  apply Forall_forall. intros arc Harc.
  by apply (initial_queue_default _ _ Hq) in Harc as [? _].
Qed.

Lemma ac3_narrowed cw doms arcs b doms' :
  ac3 cw doms arcs = Ok (b, doms') → narrowed doms doms'.
Proof.
  unfold ac3. intros (queue & _ & Hloop)%bind_Ok.
  by apply ac3_loop_narrowed in Hloop.
Qed.

(** With an empty domain among the variables, the search gives up in its
    first call: the variable it selects has no candidate. *)
Lemma backtrack_empty_domain cw doms x :
  domains_cover cw doms → x ∈ variables cw → doms !! x = Some [] →
  backtrack cw (mkWorld doms [] 0) = Ok (None, mkWorld doms [] 1).
Proof.
  intros Hcover Hx Hdx. unfold backtrack. simpl.
  assert (unassigned_vars cw [] = variables cw) as Hun.
  { apply filter_all. intros v _. apply not_elem_of_nil. }
  rewrite Hun. unfold assignment_complete. simpl.
  rewrite bool_decide_eq_false_2
    by (destruct (variables cw); [by apply elem_of_nil in Hx|done]).
  destruct (select_unassigned_variable_min cw doms []) as (v & Hv & Hmin).
  - by rewrite Hun.
  - rewrite Hun. intros Hnil. rewrite Hnil in Hx. by apply elem_of_nil in Hx.
  - rewrite Hv. simpl.
    pose proof (select_unassigned_variable_elem _ _ _ _ Hv) as Hel.
    rewrite Hun in Hel, Hmin.
    unfold domains_cover in Hcover. rewrite Forall_forall in Hcover.
    destruct (Hcover v Hel) as [d Hd].
    specialize (Hmin x Hx). apply key_lt_false in Hmin.
    unfold key_of, remaining in Hmin. rewrite Hd, Hdx in Hmin. simpl in Hmin.
    assert (d = []) as -> by (destruct d; [done|simpl in Hmin; lia]).
    unfold order_domain_values, get_domain. rewrite Hd. done.
Qed.

(** C2, as the code has it.  When [ac3] reports failure, [solve] goes on to
    call [backtrack] all the same: the call is made once, it selects a
    variable that has no candidate left, tries nothing and returns [None],
    which is what [solve] returns. *)
Theorem solve_after_failed_ac3 (cw : Crossword) (doms doms' : Domains) :
  domains_cover cw doms →
  ac3 cw (enforce_node_consistency doms) None = Ok (false, doms') →
  solve cw doms = Ok (None, mkWorld doms' [] 1).
Proof.
  intros Hcover Hac3. unfold solve. rewrite Hac3. simpl.
  destruct (ac3_default_false _ _ _ Hac3) as (x & Hx & Hdx).
  apply backtrack_empty_domain with x; [|done..].
  apply narrowed_cover with (enforce_node_consistency doms);
    [by apply ac3_narrowed in Hac3|].
  apply narrowed_cover with doms; [apply enforce_node_consistency_narrowed|done].
Qed.

(** ** Arc consistency *)

Lemma agree_sym i j wx wy : agree i j wx wy → agree j i wy wx.
Proof. intros (c & ? & ?). by exists c. Qed.

Lemma supported_elem i j dy wx :
  supported i j dy wx ↔ ∃ wy, wy ∈ dy ∧ agree i j wx wy.
Proof. unfold supported. by rewrite Exists_exists. Qed.

Lemma consistent_found_inv word_x i j dy b :
  consistent_found word_x i j dy = Ok b → b = bool_decide (supported i j dy word_x).
Proof.
  revert b. induction dy as [|word_y dy IH]; intros b; simpl.
  - by intros [= <-].
  - intros (cx & Hcx%str_index_Ok & (cy & Hcy%str_index_Ok & Hrest)%bind_Ok)%bind_Ok.
    case_decide as Heq.
    + injection Hrest as <-. symmetry. apply bool_decide_eq_true_2.
      apply supported_cons. left. exists cx. by subst.
    + rewrite (IH _ Hrest). apply bool_decide_ext. rewrite supported_cons.
      split; [tauto|]. intros [(c & ? & ?)|]; [congruence|done].
Qed.

Lemma revise_scan_elem doms y i j dx to_remove revised :
  revise_scan doms y i j dx = Ok (to_remove, revised) →
  ∀ w, w ∈ to_remove ↔
       w ∈ dx ∧ ∃ dy, doms !! y = Some dy ∧ ¬ supported i j dy w.
Proof.
  revert to_remove revised.
  induction dx as [|word_x dx IH]; intros to_remove revised; simpl.
  - intros [= <- <-] w. rewrite !elem_of_nil. tauto.
  - intros (dy & Hdy%get_domain_Ok & (found & Hfound%consistent_found_inv
             & ([tr rv] & Hrec & Hres)%bind_Ok)%bind_Ok)%bind_Ok w.
    specialize (IH _ _ Hrec w). rewrite elem_of_cons. subst found.
    case_bool_decide as Hs; injection Hres as <- <-.
    + rewrite IH. split; [tauto|]. intros [[->|?] (dy' & Hdy' & Hn)]; [|eauto].
      rewrite Hdy in Hdy'. injection Hdy' as <-. done.
    + rewrite elem_of_cons, IH. split; [|tauto].
      intros [->|?]; [|tauto]. split; [by left|]. by exists dy.
Qed.

(** What [revise] leaves in the domain of [x], whenever it returns. *)
Lemma revise_elem cw doms x y i j revised doms' :
  overlaps cw !! (x, y) = Some (Some (i, j)) →
  revise cw doms x y = Ok (revised, doms') →
  ∃ dx dx', doms !! x = Some dx ∧ doms' = <[x := dx']> doms ∧
    ∀ w, w ∈ dx' ↔
         w ∈ dx ∧ ∀ dy, doms !! y = Some dy → supported i j dy w.
Proof.
  intros Ho. unfold revise, get_overlap. rewrite Ho. simpl.
  intros (dx & Hx%get_domain_Ok & ([tr rv] & Hscan & [= <- <-])%bind_Ok)%bind_Ok.
  exists dx. eexists. split; [done|]. split; [done|]. intros w.
  rewrite set_remove_all_filter, list_elem_of_filter,
    (revise_scan_elem _ _ _ _ _ _ _ Hscan).
  split.
  - intros [Hn Hw]. split; [done|]. intros dy Hdy.
    destruct (decide (supported i j dy w)) as [|Hns]; [done|].
    destruct Hn. eauto.
  - intros [Hw Hs]. split; [|done]. intros [_ (dy & Hdy & Hn)]. auto.
Qed.

Section arc_consistency.
Context (cw : Crossword).
Hypothesis Hsym : overlaps_symmetric cw.

(** One iteration keeps the invariant. *)
Lemma revise_invariant doms x y queue revised doms' :
  is_arc cw (x, y) →
  ac3_invariant cw doms ((x, y) :: queue) →
  revise cw doms x y = Ok (revised, doms') →
  ac3_invariant cw doms'
    (if revised
     then queue ++ ((λ k, (k, x)) <$> filter (λ k, k ≠ y) (neighbors cw x))
     else queue).
Proof using Hsym.
  intros (Hx & Hy & Hxy & Hov) Hinv Hrev. simpl in *.
  apply has_overlap_true in Hov as [[i j] Ho].
  destruct (revise_elem _ _ _ _ _ _ _ _ Ho Hrev) as (dx & dx' & Hdx & -> & Hdx').
  assert (arc_consistent cw (<[x := dx']> doms) x y) as Hnow.
  { intros i' j' d1 d2 Ho' H1 H2 wx Hwx.
    rewrite Ho in Ho'. injection Ho' as <- <-.
    rewrite lookup_insert_eq in H1. injection H1 as <-.
    rewrite lookup_insert_ne in H2 by done.
    apply Hdx' in Hwx as [_ Hs]. by apply supported_elem, Hs. }
  assert (∀ a b, is_arc cw (a, b) → arc_consistent cw doms a b →
            b ≠ x ∨ a = y → arc_consistent cw (<[x := dx']> doms) a b) as Hkeep.
  { intros a b (_ & _ & Hab & _) Hold Hcase. simpl in Hab.
    intros i' j' d1 d2 Ho' H1 H2 wa Hwa.
    destruct (decide (b = x)) as [->|Hbx].
    - destruct Hcase as [?| ->]; [done|].
      rewrite lookup_insert_eq in H2. injection H2 as <-.
      rewrite lookup_insert_ne in H1 by done.
      destruct (Hold i' j' d1 dx Ho' H1 Hdx wa Hwa) as (wx & Hwx & Hag).
      exists wx. split; [|done]. apply Hdx'. split; [done|].
      intros dy Hdy. assert (dy = d1) as -> by congruence.
      apply Hsym in Ho'. rewrite Ho in Ho'. injection Ho' as <- <-.
      apply supported_elem. exists wa. split; [done|]. by apply agree_sym.
    - rewrite lookup_insert_ne in H2 by done.
      destruct (decide (a = x)) as [->|Hax].
      + rewrite lookup_insert_eq in H1. injection H1 as <-.
        apply Hdx' in Hwa as [Hwa _]. by apply (Hold i' j' dx d2).
      + rewrite lookup_insert_ne in H1 by done. by apply (Hold i' j' d1 d2). }
  intros [a b] Harc. simpl.
  destruct (decide ((a, b) = (x, y))) as [[= -> ->]|Hne]; [by right|].
  destruct (Hinv (a, b) Harc) as [[?|Hin]%elem_of_cons|Hold]; [done| |].
  { left. destruct revised; [|done]. apply elem_of_app. by left. }
  simpl in Hold. destruct revised.
  - destruct (decide (b = x)) as [->|Hbx].
    + destruct (decide (a = y)) as [->|Hay]; [right; apply Hkeep; auto|].
      left. apply elem_of_app. right. apply list_elem_of_fmap. exists a.
      split; [done|]. apply list_elem_of_filter. split; [done|].
      apply elem_of_neighbors. destruct Harc as (? & ? & ? & ?). by simpl in *.
    + right. apply Hkeep; auto.
  - right. apply revise_inv in Hrev as [[_ ->]|[? _]]; done.
Qed.

Lemma ac3_loop_arc_consistent fuel doms queue doms' :
  Forall (is_arc cw) queue →
  ac3_invariant cw doms queue →
  ac3_loop cw fuel doms queue = Ok (true, doms') →
  ∀ x y, is_arc cw (x, y) → arc_consistent cw doms' x y.
Proof using Hsym.
  revert doms queue. induction fuel as [|fuel IH]; intros doms queue Hq Hinv; [done|].
  simpl. destruct queue as [|[x y] queue].
  - intros [= <-] x y Harc. by destruct (Hinv _ Harc) as [?%elem_of_nil|?].
  - apply Forall_cons in Hq as [Hxy Hq].
    intros ([revised doms1] & Hrev & Hrest)%bind_Ok a b Harc.
    pose proof (revise_invariant _ _ _ _ _ _ Hxy Hinv Hrev) as Hinv1.
    destruct revised.
    + apply bind_Ok in Hrest as (dx & _ & Hrest). case_decide; [done|].
      eapply IH; [|exact Hinv1|exact Hrest|exact Harc].
      apply Forall_app. split; [done|].
      apply Forall_forall. intros arc (k & -> & Hk)%list_elem_of_fmap.
      apply list_elem_of_filter in Hk as [_ Hk].
      apply elem_of_neighbors in Hk as (? & ? & ?).
      destruct Hxy as (? & _). by repeat split.
    + eapply IH; [exact Hq|exact Hinv1|exact Hrest|exact Harc].
Qed.

(** After a successful [ac3] with the default arcs, every arc of the
    puzzle is consistent. *)
Lemma ac3_arc_consistent doms doms' :
  ac3 cw doms None = Ok (true, doms') →
  ∀ x y, is_arc cw (x, y) → arc_consistent cw doms' x y.
Proof using Hsym.
  unfold ac3. intros (queue & Hq & Hloop)%bind_Ok x y Harc.
  eapply ac3_loop_arc_consistent; [| |exact Hloop|exact Harc].
  - apply Forall_forall. intros arc. by apply initial_queue_default.
  - intros arc Harc'. left. by apply (initial_queue_default _ _ Hq).
Qed.
End arc_consistency.

(** ** Running [ac3] on a well-formed puzzle *)

Lemma node_consistent_indexable cw doms x y i j dx :
  offsets_in_range cw → node_consistent doms →
  overlaps cw !! (x, y) = Some (Some (i, j)) →
  doms !! x = Some dx → indexable i dx.
Proof.
  intros Hin Hnc Ho Hdx. destruct (Hin _ _ _ _ Ho) as [Hi _].
  specialize (Hnc x dx Hdx). unfold indexable.
  eapply Forall_impl; [exact Hnc|]. simpl. intros w ->. done.
Qed.

Lemma node_consistent_indexable_r cw doms x y i j dy :
  offsets_in_range cw → node_consistent doms →
  overlaps cw !! (x, y) = Some (Some (i, j)) →
  doms !! y = Some dy → indexable j dy.
Proof.
  intros Hin Hnc Ho Hdy. destruct (Hin _ _ _ _ Ho) as [_ Hj].
  specialize (Hnc y dy Hdy). unfold indexable.
  eapply Forall_impl; [exact Hnc|]. simpl. intros w ->. done.
Qed.

(** On an arc of a well-formed puzzle, [revise] returns. *)
Lemma revise_arc_Ok cw doms x y :
  offsets_in_range cw → node_consistent doms → domains_cover cw doms →
  is_arc cw (x, y) →
  ∃ revised doms', revise cw doms x y = Ok (revised, doms').
Proof.
  intros Hin Hnc Hcover (Hx & Hy & _ & Hov). simpl in *.
  apply has_overlap_true in Hov as [[i j] Ho].
  unfold domains_cover in Hcover. rewrite Forall_forall in Hcover.
  destruct (Hcover x Hx) as [dx Hdx]. destruct (Hcover y Hy) as [dy Hdy].
  eexists _, _. apply (revise_overlap cw doms x y i j dx dy); [done..| |].
  - by eapply node_consistent_indexable.
  - by eapply node_consistent_indexable_r.
Qed.

(** On a consistent arc, [revise] changes nothing. *)
Lemma revise_arc_consistent cw doms x y :
  offsets_in_range cw → node_consistent doms → domains_cover cw doms →
  is_arc cw (x, y) → arc_consistent cw doms x y →
  revise cw doms x y = Ok (false, doms).
Proof.
  intros Hin Hnc Hcover (Hx & Hy & _ & Hov) Hac. simpl in *.
  apply has_overlap_true in Hov as [[i j] Ho].
  unfold domains_cover in Hcover. rewrite Forall_forall in Hcover.
  destruct (Hcover x Hx) as [dx Hdx]. destruct (Hcover y Hy) as [dy Hdy].
  rewrite (revise_overlap cw doms x y i j dx dy); [|done..| |].
  - assert (filter (supported i j dy) dx = dx) as ->.
    { apply filter_all. intros w Hw. apply supported_elem. by eapply Hac. }
    rewrite insert_id by done. by rewrite bool_decide_eq_false_2 by auto.
  - by eapply node_consistent_indexable.
  - by eapply node_consistent_indexable_r.
Qed.

Lemma ac3_loop_fixpoint cw fuel doms queue :
  offsets_in_range cw → node_consistent doms → domains_cover cw doms →
  Forall (λ arc, is_arc cw arc ∧ arc_consistent cw doms arc.1 arc.2) queue →
  length queue < fuel →
  ac3_loop cw fuel doms queue = Ok (true, doms).
Proof.
  intros Hin Hnc Hcover Hq. revert fuel.
  induction Hq as [|[x y] queue [Harc Hac] Hq IH]; intros fuel Hfuel;
    (destruct fuel as [|fuel]; [simpl in Hfuel; lia|]); simpl; [done|].
  rewrite revise_arc_consistent by done. simpl. apply IH. simpl in Hfuel. lia.
Qed.

Lemma ac3_loop_Ok cw fuel doms queue :
  offsets_in_range cw → node_consistent doms → domains_cover cw doms →
  Forall (is_arc cw) queue →
  length queue + domains_size doms * length (variables cw) < fuel →
  ∃ b doms', ac3_loop cw fuel doms queue = Ok (b, doms').
Proof.
  intros Hin. revert doms queue.
  induction fuel as [|fuel IH]; intros doms queue Hnc Hcover Hq Hfuel; [lia|].
  simpl. destruct queue as [|[x y] queue]; [by eexists _, _|].
  apply Forall_cons in Hq as [Hxy Hq].
  destruct (revise_arc_Ok cw doms x y) as (revised & doms1 & Hrev); [done..|].
  rewrite Hrev. simpl.
  pose proof (revise_narrowed _ _ _ _ _ _ Hrev) as Hn.
  pose proof (revise_size _ _ _ _ _ _ Hrev) as Hsize.
  assert (node_consistent doms1) by by eapply narrowed_node_consistent.
  assert (domains_cover cw doms1) as Hcover1 by by eapply narrowed_cover.
  destruct revised.
  - destruct Hxy as (Hx & _). simpl in Hx.
    unfold domains_cover in Hcover1. rewrite Forall_forall in Hcover1.
    destruct (Hcover1 x Hx) as [dx Hdx]. unfold get_domain. rewrite Hdx. simpl.
    case_decide; [by eexists _, _|]. apply IH; [done|by apply Forall_forall| |].
    + apply Forall_app. split; [done|].
      apply Forall_forall. intros arc (k & -> & Hk)%list_elem_of_fmap.
      apply list_elem_of_filter in Hk as [_ Hk].
      apply elem_of_neighbors in Hk as (? & ? & ?). by repeat split.
    + rewrite length_app, length_fmap. simpl in Hfuel.
      pose proof (length_filter (λ k, k ≠ y) (neighbors cw x)).
      pose proof (neighbors_length cw x). nia.
  - subst doms1. apply IH; [done..|]. simpl in Hfuel. lia.
Qed.

(** ** Running [solve] again *)

Lemma solve_node_consistent cw doms b doms' :
  ac3 cw (enforce_node_consistency doms) None = Ok (b, doms') →
  node_consistent doms'.
Proof.
  intros Hn%ac3_narrowed. eapply narrowed_node_consistent; [done|].
  apply enforce_node_consistency_node_consistent.
Qed.

Lemma ac3_rerun_true cw doms doms' :
  offsets_in_range cw → overlaps_symmetric cw →
  node_consistent doms' → domains_cover cw doms' →
  ac3 cw doms None = Ok (true, doms') →
  ac3 cw doms' None = Ok (true, doms').
Proof.
  intros Hin Hsym Hnc Hcover Hac3.
  pose proof (ac3_arc_consistent cw Hsym _ _ Hac3) as Hac.
  unfold ac3 in *. apply bind_Ok in Hac3 as (queue & Hq & _). rewrite Hq. cbn [mbind Res_bind].
  apply ac3_loop_fixpoint; [done..| |unfold ac3_fuel; lia].
  apply Forall_forall. intros [x y] Harc%(initial_queue_default _ _ Hq).
  split; [done|]. by apply Hac.
Qed.

Lemma ac3_rerun_Ok cw doms b doms' :
  offsets_in_range cw → node_consistent doms' → domains_cover cw doms' →
  ac3 cw doms None = Ok (b, doms') →
  ∃ b2 doms2, ac3 cw doms' None = Ok (b2, doms2).
Proof.
  intros Hin Hnc Hcover Hac3. unfold ac3 in *.
  apply bind_Ok in Hac3 as (queue & Hq & _). rewrite Hq. cbn [mbind Res_bind].
  apply ac3_loop_Ok; [done..| |unfold ac3_fuel; lia].
  apply Forall_forall. intros arc. by apply initial_queue_default.
Qed.

(** C7, as the code has it.  With the iteration order of the variable set
    and of the word sets fixed, [solve] is a function of the puzzle and of
    the domains of the creator, and running it a second time, on the creator
    that the first run has left, returns what the first run returned: the
    same assignment, or [None] both times.  The puzzle is taken to be
    well-formed: offsets within the lengths, a symmetric overlap table and a
    domain for every variable. *)
Theorem solve_again (cw : Crossword) (doms : Domains) (r : option Assignment)
    (w : World) :
  offsets_in_range cw → overlaps_symmetric cw → domains_cover cw doms →
  solve cw doms = Ok (r, w) →
  ∃ w', solve cw (domains w) = Ok (r, w').
Proof.
  intros Hin Hsym Hcover (b & doms1 & Hac3 & Hb)%solve_inv.
  pose proof (solve_node_consistent _ _ _ _ Hac3) as Hnc1.
  assert (domains_cover cw doms1) as Hcover1.
  { eapply narrowed_cover; [by apply ac3_narrowed in Hac3|].
    eapply narrowed_cover; [apply enforce_node_consistency_narrowed|done]. }
  assert (domains w = doms1) as ->.
  { by apply backtrack_rec_restores in Hb as [? _]. }
  unfold solve. rewrite enforce_node_consistency_id by done.
  destruct b.
  - rewrite (ac3_rerun_true cw _ doms1) by done. simpl. by exists w.
  - destruct (ac3_default_false _ _ _ Hac3) as (x & Hx & Hdx).
    rewrite (backtrack_empty_domain cw doms1 x) in Hb by done.
    injection Hb as <- <-.
    destruct (ac3_rerun_Ok cw _ _ doms1 Hin Hnc1 Hcover1 Hac3)
      as (b2 & doms2 & Hac3').
    rewrite Hac3'. simpl. pose proof (ac3_narrowed _ _ _ _ _ Hac3') as Hn.
    eexists. apply (backtrack_empty_domain cw doms2 x); [|done|].
    + by eapply narrowed_cover.
    + by eapply narrowed_empty.
Qed.

(** ** Checking the assumptions on a given puzzle *)

Lemma well_formedb_spec cw :
  well_formedb cw = true → offsets_in_range cw ∧ overlaps_symmetric cw.
Proof.
  unfold well_formedb. rewrite forallb_forall. intros Hall.
  assert (∀ x y i j, overlaps cw !! (x, y) = Some (Some (i, j)) →
            i < var_length x ∧ j < var_length y ∧
            overlaps cw !! (y, x) = Some (Some (j, i))) as H.
  { intros x y i j Ho. apply elem_of_map_to_list, list_elem_of_In in Ho.
    apply Hall in Ho. simpl in Ho. by apply bool_decide_eq_true in Ho. }
  split; intros x y i j Ho; apply H in Ho; tauto.
Qed.

(** ** The claims on the example puzzles *)

Lemma cw_cross_well_formed : offsets_in_range cw_cross ∧ overlaps_symmetric cw_cross.
Proof. apply well_formedb_spec. vm_compute. reflexivity. Qed.

(** C2, as stated, fails.  On the puzzle [cw_no_long_word], [ac3] empties a
    domain and reports failure, and [solve] does not return without calling
    [backtrack]: there is no final state with a call count of zero. *)
Lemma solve_calls_backtrack_after_failed_ac3 :
  (∃ doms', ac3 cw_no_long_word
              (enforce_node_consistency (init_domains cw_no_long_word)) None
            = Ok (false, doms')) ∧
  ¬ ∃ w, solve_crossword cw_no_long_word = Ok (None, w) ∧ backtrack_calls w = 0.
Proof.
  split.
  - eexists. vm_compute. reflexivity.
  - intros (w & Hs & Hc). vm_compute in Hs. injection Hs as <-. discriminate Hc.
Qed.

(** C3 at the failing input.  On the puzzle [cw_short_word], node
    consistency empties the domain of the only variable, and [ac3] with the
    default arcs returns [True] although that domain is empty. *)
Theorem ac3_succeeds_with_empty_domain :
  ∃ doms', ac3 cw_short_word
             (enforce_node_consistency (init_domains cw_short_word)) None
           = Ok (true, doms') ∧
           doms' !! v_across = Some [].
Proof. eexists. split; vm_compute; reflexivity. Qed.

(** C7, as stated, fails.  The puzzles [cw_cat_dog] and [cw_dog_cat] have
    the same variables, the same overlap table and the same set of words,
    enumerated in two orders, and [solve] returns two different
    assignments. *)
Lemma solve_depends_on_iteration_order :
  variables cw_cat_dog = variables cw_dog_cat ∧
  overlaps cw_cat_dog = overlaps cw_dog_cat ∧
  words cw_cat_dog ≡ₚ words cw_dog_cat ∧
  returned (solve_crossword cw_cat_dog) = Ok (Some [(v_across, "CAT"%string)]) ∧
  returned (solve_crossword cw_dog_cat) = Ok (Some [(v_across, "DOG"%string)]) ∧
  returned (solve_crossword cw_cat_dog) ≠ returned (solve_crossword cw_dog_cat).
Proof.
  split; [done|]. split; [done|]. split; [apply Permutation_swap|].
  assert (returned (solve_crossword cw_cat_dog)
          = Ok (Some [(v_across, "CAT"%string)])) as H1
    by (vm_compute; reflexivity).
  assert (returned (solve_crossword cw_dog_cat)
          = Ok (Some [(v_across, "DOG"%string)])) as H2
    by (vm_compute; reflexivity).
  split; [done|]. split; [done|]. rewrite H1, H2. discriminate.
Qed.

(** ** Instances of the theorems *)

Lemma solve_sound_witness :
  covers cw_cross [(v_across, "CAT"%string); (v_down, "CAR"%string)] ∧
  consistent cw_cross [(v_across, "CAT"%string); (v_down, "CAR"%string)] = Ok true ∧
  satisfies_checker cw_cross [(v_across, "CAT"%string); (v_down, "CAR"%string)].
Proof.
  apply (solve_sound cw_cross (init_domains cw_cross) _
           (mkWorld (init_domains cw_cross)
              [(v_across, "CAT"%string); (v_down, "CAR"%string)] 3)).
  - apply (bool_decide_unpack _). vm_compute. reflexivity.
  - vm_compute. reflexivity.
Defined.

Lemma solve_after_failed_ac3_witness :
  ∃ doms', solve cw_no_long_word (init_domains cw_no_long_word)
           = Ok (None, mkWorld doms' [] 1).
Proof.
  eexists.
  apply (solve_after_failed_ac3 cw_no_long_word (init_domains cw_no_long_word)).
  - apply init_domains_cover.
  - vm_compute. reflexivity.
Defined.

Lemma revise_spec_witness :
  ∃ revised doms' dx',
    revise cw_cross doms_cat_dog_car v_across v_down = Ok (revised, doms') ∧
    doms' !! v_across = Some dx' ∧
    dx' = filter (supported 0 0 ["CAR"%string]) ["CAT"; "DOG"]%string ∧
    (∀ wx, wx ∈ ["CAT"; "DOG"]%string →
       (wx ∉ dx' ↔ ¬ ∃ wy, wy ∈ ["CAR"%string] ∧ agree 0 0 wx wy)) ∧
    (∀ wx, wx ∈ dx' → wx ∈ ["CAT"; "DOG"]%string) ∧
    doms' !! v_down = Some ["CAR"%string] ∧
    (∀ z, z ≠ v_across → doms' !! z = doms_cat_dog_car !! z) ∧
    (revised = true ↔ dx' ≠ ["CAT"; "DOG"]%string).
Proof.
  refine (revise_spec cw_cross doms_cat_dog_car v_across v_down
            ["CAT"; "DOG"]%string ["CAR"%string] _ _ _ _ _).
  - done.
  - vm_compute. reflexivity.
  - vm_compute. reflexivity.
  - repeat constructor.
  - repeat constructor.
Defined.

Lemma backtrack_failure_restores_witness :
  ∃ w', backtrack cw_unsolvable (mkWorld (init_domains cw_unsolvable) [] 0)
        = Ok (None, w') ∧
        assignment w' = [] ∧ domains w' = init_domains cw_unsolvable.
Proof.
  eexists. split; [vm_compute; reflexivity|].
  destruct (backtrack_failure_restores cw_unsolvable) as [_ Hb].
  apply (Hb (mkWorld (init_domains cw_unsolvable) [] 0)).
  vm_compute. reflexivity.
Defined.

Lemma enforce_node_consistency_spec_witness :
  ∃ d', enforce_node_consistency (init_domains cw_short_word) !! v_across = Some d' ∧
    d' = filter (λ w, String.length w = var_length v_across) ["AB"%string] ∧
    (∀ w, w ∈ d' → String.length w = var_length v_across) ∧
    (∀ w, w ∈ ["AB"%string] → (w ∉ d' ↔ String.length w ≠ var_length v_across)).
Proof.
  apply (enforce_node_consistency_spec (init_domains cw_short_word) v_across).
  vm_compute. reflexivity.
Defined.

Lemma select_unassigned_variable_spec_witness :
  ∃ v, select_unassigned_variable cw_cross doms_cat_dog_car [] = Ok v ∧
       v ∈ variables cw_cross ∧ (v ∉ keys []) ∧
       ∀ u, u ∈ variables cw_cross → u ∉ keys [] →
            remaining doms_cat_dog_car v ≤ remaining doms_cat_dog_car u ∧
            (remaining doms_cat_dog_car u = remaining doms_cat_dog_car v →
             degree cw_cross u ≤ degree cw_cross v).
Proof.
  apply (select_unassigned_variable_spec cw_cross doms_cat_dog_car []).
  - apply (bool_decide_unpack _). vm_compute. reflexivity.
  - exists v_across. split; [by left|]. apply not_elem_of_nil.
Defined.

Lemma ac3_terminates_witness :
  ∃ doms', revise cw_cross doms_cat_dog_car v_across v_down = Ok (true, doms') ∧
           domains_size doms' < domains_size doms_cat_dog_car.
Proof.
  eexists. split; [vm_compute; reflexivity|].
  destruct (ac3_terminates cw_cross doms_cat_dog_car) as (_ & _ & Hsize).
  apply (Hsize v_across v_down). vm_compute. reflexivity.
Defined.

Lemma select_unassigned_variable_total_witness :
  unassigned_vars cw_cross [(v_across, "CAT"%string)] ≠ [] ∧
  ∃ v, select_unassigned_variable cw_cross doms_cat_dog_car
         [(v_across, "CAT"%string)] = Ok v ∧
       v ∈ variables cw_cross ∧ v ∉ keys [(v_across, "CAT"%string)].
Proof.
  destruct (select_unassigned_variable_total cw_cross) as (Hsel & _).
  apply Hsel.
  - apply (bool_decide_unpack _). vm_compute. reflexivity.
  - intros v [->|[]%elem_of_nil]%elem_of_cons. by left.
  - exists v_down. split; [right; by left|].
    by intros [[=]|[]%elem_of_nil]%elem_of_cons.
Defined.

Lemma solve_again_witness :
  ∃ w', solve cw_cross (init_domains cw_cross)
        = Ok (Some [(v_across, "CAT"%string); (v_down, "CAR"%string)], w').
Proof.
  destruct (solve_again cw_cross (init_domains cw_cross)
              (Some [(v_across, "CAT"%string); (v_down, "CAR"%string)])
              (mkWorld (init_domains cw_cross)
                 [(v_across, "CAT"%string); (v_down, "CAR"%string)] 3))
    as [w' Hw'].
  - apply cw_cross_well_formed.
  - apply cw_cross_well_formed.
  - apply init_domains_cover.
  - vm_compute. reflexivity.
  - by exists w'.
Defined.

(** * Further properties of the solver *)

(** ** The Consistency Checker decides its specification *)

Lemma NoDup_remove_dups_id {A} `{EqDecision A} (l : list A) :
  NoDup l → remove_dups l = l.
Proof.
  induction 1 as [|x l Hx Hnd IH]; simpl; [done|].
  destruct (decide_rel elem_of x l); [done|]. by rewrite IH.
Qed.

Lemma lengths_ok_spec a : lengths_ok a = true ↔ lengths_match a.
Proof.
  unfold lengths_ok, lengths_match. rewrite forallb_forall, Forall_forall.
  split; intros H item Hitem.
  - apply list_elem_of_In in Hitem. by apply H, bool_decide_eq_true in Hitem.
  - apply list_elem_of_In in Hitem. by apply bool_decide_eq_true, H.
Qed.

Lemma check_pair_spec cw v1 w1 v2 w2 :
  offsets_in_range cw →
  (v1 ≠ v2 → is_Some (overlaps cw !! (v1, v2))) →
  String.length w1 = var_length v1 → String.length w2 = var_length v2 →
  ∃ b, check_pair cw v1 w1 v2 w2 = Ok b ∧ (b = true ↔ pair_agrees cw v1 w1 v2 w2).
Proof.
  intros Hin Htot Hl1 Hl2. unfold check_pair, pair_agrees.
  destruct (decide (v1 ≠ v2)) as [Hne|Heq]; [|exists true; by split].
  destruct (Htot Hne) as [o Ho]. unfold get_overlap. rewrite Ho. simpl.
  destruct o as [[i j]|].
  - destruct (Hin _ _ _ _ Ho) as [Hi Hj].
    destruct (string_get_lt w1 i) as [c1 Hc1]; [lia|].
    destruct (string_get_lt w2 j) as [c2 Hc2]; [lia|].
    unfold str_index. rewrite Hc1, Hc2. simpl. eexists. split; [done|].
    rewrite bool_decide_eq_true. split.
    + intros -> _ i' j' [= <- <-]. by exists c2.
    + intros Hag. destruct (Hag Hne i j eq_refl) as (c & ? & ?). congruence.
  - exists true. split; [done|]. split; [|done]. intros _ _ i j [=].
Qed.

Lemma check_inner_spec cw v1 w1 items :
  offsets_in_range cw → String.length w1 = var_length v1 →
  Forall (λ item, (v1 ≠ item.1 → is_Some (overlaps cw !! (v1, item.1))) ∧
                  String.length item.2 = var_length item.1) items →
  ∃ b, check_inner cw v1 w1 items = Ok b ∧
       (b = true ↔ Forall (λ item, pair_agrees cw v1 w1 item.1 item.2) items).
Proof.
  intros Hin Hl1. induction 1 as [|[v2 w2] items [Htot Hl2] _ IH]; simpl in *.
  - exists true. by split.
  - destruct (check_pair_spec cw v1 w1 v2 w2) as (b & -> & Hb); [done..|]. simpl.
    destruct b.
    + destruct IH as (b' & -> & Hb'). exists b'. split; [done|].
      rewrite Hb', Forall_cons. simpl. tauto.
    + exists false. split; [done|]. rewrite Forall_cons. simpl.
      split; [done|]. intros [Hp _]. by apply Hb in Hp.
Qed.

Lemma check_outer_spec cw items all :
  offsets_in_range cw →
  Forall (λ item, String.length item.2 = var_length item.1) items →
  Forall (λ item, String.length item.2 = var_length item.1) all →
  (∀ i1 i2, i1 ∈ items → i2 ∈ all → i1.1 ≠ i2.1 →
     is_Some (overlaps cw !! (i1.1, i2.1))) →
  ∃ b, check_outer cw items all = Ok b ∧
       (b = true ↔
        Forall (λ i1, Forall (λ i2, pair_agrees cw i1.1 i1.2 i2.1 i2.2) all) items).
Proof.
  intros Hin Hitems Hall. induction Hitems as [|[v1 w1] items Hl1 _ IH];
    intros Htot; simpl in *.
  - exists true. by split.
  - destruct (check_inner_spec cw v1 w1 all) as (b & -> & Hb); [done..| |].
    { rewrite Forall_forall in Hall. apply Forall_forall. intros i2 Hi2. split.
      - intros Hne. apply (Htot (v1, w1) i2); [by left|done..].
      - by apply Hall. }
    simpl. destruct b.
    + destruct IH as (b' & -> & Hb').
      { intros i1 i2 Hi1. apply Htot. by right. }
      exists b'. split; [done|]. rewrite Hb', Forall_cons. simpl. tauto.
    + exists false. split; [done|]. rewrite Forall_cons. simpl.
      split; [done|]. intros [Hp _]. by apply Hb in Hp.
Qed.

Lemma overlaps_agree_Forall cw a :
  overlaps_agree cw a ↔
  Forall (λ i1, Forall (λ i2, pair_agrees cw i1.1 i1.2 i2.1 i2.2) a) a.
Proof.
  unfold overlaps_agree, pair_agrees. split.
  - intros H. apply Forall_forall. intros [v1 w1] H1.
    apply Forall_forall. intros [v2 w2] H2. simpl. eauto.
  - intros H v1 w1 v2 w2 i j H1 H2. rewrite Forall_forall in H.
    specialize (H _ H1). rewrite Forall_forall in H.
    intros Hne Ho. by apply (H _ H2 Hne i j).
Qed.

(** On a dictionary whose keys are variables of a well-formed puzzle,
    [consistent] raises nothing and returns [True] exactly when the
    dictionary satisfies the three constraints. *)
Lemma consistent_decides cw a :
  overlaps_total cw → offsets_in_range cw → keys a ⊆ variables cw →
  ∃ b, consistent cw a = Ok b ∧ (b = true ↔ satisfies_checker cw a).
Proof.
  intros Htot Hin Hkeys. unfold consistent, satisfies_checker.
  destruct (decide (length (values a) ≠ length (remove_dups (values a))))
    as [Hlen|Hlen].
  { exists false. split; [done|]. split; [done|]. intros (Hnd & _).
    exfalso. apply Hlen. by rewrite NoDup_remove_dups_id. }
  assert (NoDup (values a)) as Hnd.
  { apply remove_dups_length_NoDup. apply dec_stable in Hlen. by symmetry. }
  destruct (lengths_ok a) eqn:Hl; simpl.
  - apply lengths_ok_spec in Hl.
    assert (∀ i1 i2, i1 ∈ a → i2 ∈ a → i1.1 ≠ i2.1 →
              is_Some (overlaps cw !! (i1.1, i2.1))) as Hsome.
    { intros i1 i2 H1 H2 Hne.
      apply Htot; [| |done]; apply Hkeys, list_elem_of_fmap; eauto. }
    destruct (check_outer_spec cw a a Hin Hl Hl Hsome) as (b & -> & Hb).
    exists b. split; [done|]. rewrite Hb, overlaps_agree_Forall. tauto.
  - exists false. split; [done|]. split; [done|]. intros (_ & Hm & _).
    exfalso. apply lengths_ok_spec in Hm. congruence.
Qed.

(** ** [sorted] with a key *)

Lemma with_keys_inv {A K} (f : A → Res K) (l : list A) kl :
  with_keys f l = Ok kl → kl.*2 = l ∧ Forall (λ kx, f kx.2 = Ok kx.1) kl.
Proof.
  revert kl. induction l as [|x l IH]; intros kl; simpl.
  - intros [= <-]. by split.
  - intros (k & Hk & (kl' & Hkl' & [= <-])%bind_Ok)%bind_Ok.
    destruct (IH _ Hkl') as [<- Hall]. split; [done|]. by constructor.
Qed.

Lemma with_keys_Ok {A K} (f : A → Res K) (g : A → K) (l : list A) :
  Forall (λ x, f x = Ok (g x)) l → with_keys f l = Ok ((λ x, (g x, x)) <$> l).
Proof.
  induction 1 as [|x l Hx _ IH]; simpl; [done|]. by rewrite Hx, IH.
Qed.

Lemma insert_by_key_perm {A} (kx : nat * A) l : insert_by_key kx l ≡ₚ kx :: l.
Proof.
  induction l as [|ky l IH]; simpl; [done|].
  case_decide; [done|]. rewrite IH. apply Permutation_swap.
Qed.

Lemma insert_by_key_sorted {A} (kx : nat * A) l :
  StronglySorted key_le l → StronglySorted key_le (insert_by_key kx l).
Proof.
  induction 1 as [|ky l Hs IH Hall]; simpl.
  - repeat constructor.
  - case_decide as Hle.
    + constructor; [by constructor|]. constructor; [done|].
      eapply Forall_impl; [exact Hall|]. unfold key_le. simpl. intros; lia.
    + constructor; [done|]. rewrite insert_by_key_perm.
      constructor; [unfold key_le; lia|done].
Qed.

Lemma insert_by_key_filter {A} (kx : nat * A) l (k : nat) :
  filter (λ p, p.1 = k) (insert_by_key kx l) = filter (λ p, p.1 = k) (kx :: l).
Proof.
  induction l as [|ky l IH]; simpl; [done|].
  case_decide as Hle; [done|].
  rewrite (filter_cons _ ky), IH, !filter_cons.
  destruct (decide (ky.1 = k)), (decide (kx.1 = k)); try done. lia.
Qed.

Lemma stable_sort_perm {A} (l : list (nat * A)) : stable_sort l ≡ₚ l.
Proof.
  induction l as [|kx l IH]; simpl; [done|].
  by rewrite insert_by_key_perm, IH.
Qed.

Lemma stable_sort_sorted {A} (l : list (nat * A)) :
  StronglySorted key_le (stable_sort l).
Proof.
  induction l as [|kx l IH]; simpl; [constructor|]. by apply insert_by_key_sorted.
Qed.

Lemma stable_sort_filter {A} (l : list (nat * A)) (k : nat) :
  filter (λ p, p.1 = k) (stable_sort l) = filter (λ p, p.1 = k) l.
Proof.
  induction l as [|kx l IH]; simpl; [done|].
  by rewrite insert_by_key_filter, !filter_cons, IH.
Qed.

Lemma filter_keyed {A} (f : A → Res nat) (l : list (nat * A)) (k : nat) :
  Forall (λ kx, f kx.2 = Ok kx.1) l →
  filter (λ x, f x = Ok k) (l.*2) = (filter (λ p, p.1 = k) l).*2.
Proof.
  induction 1 as [|[k' x] l Hx _ IH]; [done|]. simpl in Hx.
  rewrite fmap_cons, !filter_cons, IH. simpl.
  destruct (decide (f x = Ok k)) as [Hk|Hk], (decide (k' = k)) as [Hk'|Hk'];
    try done; exfalso; congruence.
Qed.

Lemma StronglySorted_fmap_fst {A} (l : list (nat * A)) :
  StronglySorted key_le l → StronglySorted le (l.*1).
Proof.
  induction 1 as [|kx l _ IH Hall]; simpl; constructor; [done|].
  apply Forall_fmap. eapply Forall_impl; [exact Hall|]. done.
Qed.

(** What [sorted(l, key=f)] returns: the elements of [l], in ascending
    order of their keys, elements with the same key in the order of [l]. *)
Lemma sorted_by_key_inv {A} (f : A → Res nat) (l vals : list A) :
  sorted_by_key f l = Ok vals →
  vals ≡ₚ l ∧
  (∃ counts, Forall2 (λ x k, f x = Ok k) vals counts ∧ StronglySorted le counts) ∧
  ∀ k, filter (λ x, f x = Ok k) vals = filter (λ x, f x = Ok k) l.
Proof.
  unfold sorted_by_key. intros (kl & Hkl & [= <-])%bind_Ok.
  apply with_keys_inv in Hkl as [<- Hall].
  assert (Forall (λ kx, f kx.2 = Ok kx.1) (stable_sort kl)) as Hall'.
  { by rewrite stable_sort_perm. }
  split; [by rewrite stable_sort_perm|]. split.
  - exists ((stable_sort kl).*1). split.
    + apply Forall2_fmap. apply Forall_Forall2_diag. done.
    + apply StronglySorted_fmap_fst, stable_sort_sorted.
  - intros k. by rewrite !filter_keyed, stable_sort_filter.
Qed.

(** ** [order_domain_values] *)

Lemma count_conflicts_spec word i j dn count :
  i < String.length word → indexable j dn →
  count_conflicts word i j dn count = Ok (count + length (ruled_out i j word dn)).
Proof.
  intros Hi Hdn. destruct (string_get_lt _ _ Hi) as [c1 Hc1]. revert count.
  induction Hdn as [|nw dn Hj _ IH]; intros count; simpl.
  - f_equal. unfold ruled_out. simpl. lia.
  - destruct (string_get_lt _ _ Hj) as [c2 Hc2].
    unfold str_index at 1 2. rewrite Hc1, Hc2. simpl. rewrite IH.
    unfold ruled_out. rewrite filter_cons. f_equal.
    destruct (decide (c1 ≠ c2)) as [Hne|Heq].
    + rewrite decide_True; [simpl; lia|].
      intros (c & ? & ?). congruence.
    + rewrite decide_False; [lia|]. apply dec_stable in Heq as ->.
      intros Hn. apply Hn. by exists c2.
Qed.

Lemma count_neighbors_spec cw doms var a word ns count :
  offsets_in_range cw → node_consistent doms →
  String.length word = var_length var →
  Forall (λ n, is_Some (overlaps cw !! (var, n)) ∧ is_Some (doms !! n)) ns →
  count_neighbors cw doms var a word ns count
  = Ok (count + sum_list_with (eliminated_by cw doms var a word) ns).
Proof.
  intros Hin Hnc Hlen Hns. revert count.
  induction Hns as [|n ns [[o Ho] [dn Hdn]] _ IH]; intros count; simpl.
  - f_equal. lia.
  - unfold eliminated_by at 1. destruct (decide (n ∈ keys a)) as [Hk|Hk].
    + rewrite decide_False by tauto. rewrite IH. f_equal.
    + rewrite decide_True by done. unfold get_overlap, get_domain.
      rewrite Ho, Hdn. simpl. destruct o as [[i j]|].
      * destruct (Hin _ _ _ _ Ho) as [Hi Hj]. simpl.
        rewrite count_conflicts_spec; [|lia|].
        -- simpl. rewrite IH. f_equal. lia.
        -- specialize (Hnc n dn Hdn). unfold indexable.
           eapply Forall_impl; [exact Hnc|]. simpl. intros w ->. done.
      * rewrite IH. f_equal.
Qed.

Lemma count_eliminated_values_Ok cw doms var a word :
  offsets_in_range cw → overlaps_total cw →
  node_consistent doms → domains_cover cw doms →
  var ∈ variables cw → String.length word = var_length var →
  count_eliminated_values cw doms var a word = Ok (eliminated cw doms var a word).
Proof.
  intros Hin Htot Hnc Hcover Hvar Hlen. unfold count_eliminated_values, eliminated.
  rewrite count_neighbors_spec; [done..|].
  apply Forall_forall. intros n (Hn & Hne & _)%elem_of_neighbors. split.
  - apply Htot; [done..|]. by intros ->.
  - unfold domains_cover in Hcover. rewrite Forall_forall in Hcover. auto.
Qed.

Lemma order_domain_values_inv cw doms var a vals :
  order_domain_values cw doms var a = Ok vals →
  ∃ d, doms !! var = Some d ∧
       sorted_by_key (count_eliminated_values cw doms var a) d = Ok vals.
Proof.
  unfold order_domain_values. intros (d & Hd%get_domain_Ok & Hs)%bind_Ok. eauto.
Qed.

Lemma order_domain_values_Ok cw doms var a :
  offsets_in_range cw → overlaps_total cw →
  node_consistent doms → domains_cover cw doms →
  var ∈ variables cw →
  ∃ vals, order_domain_values cw doms var a = Ok vals.
Proof.
  intros Hin Htot Hnc Hcover Hvar. unfold order_domain_values, sorted_by_key.
  pose proof Hcover as Hcover'.
  unfold domains_cover in Hcover'. rewrite Forall_forall in Hcover'.
  destruct (Hcover' var Hvar) as [d Hd]. unfold get_domain. rewrite Hd. simpl.
  rewrite (with_keys_Ok _ (eliminated cw doms var a)).
  - simpl. eauto.
  - eapply Forall_impl; [exact (Hnc var d Hd)|]. simpl.
    intros word Hlen. apply count_eliminated_values_Ok; done.
Qed.

(** X1.  The list that [order_domain_values] returns holds exactly the
    candidates of the variable, each once; the numbers of values they rule
    out are in ascending order; and candidates that rule out the same number
    of values keep the order they have in the domain. *)
Theorem order_domain_values_sorted (cw : Crossword) (doms : Domains) (var : Var)
    (a : Assignment) (vals : list string) :
  order_domain_values cw doms var a = Ok vals →
  ∃ d, doms !! var = Some d ∧ vals ≡ₚ d ∧
    (∃ counts,
       Forall2 (λ word k, count_eliminated_values cw doms var a word = Ok k)
         vals counts ∧
       StronglySorted le counts) ∧
    ∀ k, filter (λ word, count_eliminated_values cw doms var a word = Ok k) vals
         = filter (λ word, count_eliminated_values cw doms var a word = Ok k) d.
Proof.
  intros (d & Hd & Hs)%order_domain_values_inv. exists d. split; [done|].
  by apply sorted_by_key_inv.
Qed.

(** X2.  On a well-formed puzzle with node-consistent domains, the key that
    [order_domain_values] computes for a candidate is the number of
    candidates of the unassigned neighbors that disagree with it at the
    overlap, and computing it raises nothing. *)
Theorem count_eliminated_values_spec (cw : Crossword) (doms : Domains) (var : Var)
    (a : Assignment) (word : string) :
  offsets_in_range cw → overlaps_total cw →
  node_consistent doms → domains_cover cw doms →
  var ∈ variables cw → String.length word = var_length var →
  count_eliminated_values cw doms var a word
  = Ok (sum_list_with
          (λ neighbor,
             if decide (neighbor ∈ keys a) then 0
             else match overlaps cw !! (var, neighbor), doms !! neighbor with
                  | Some (Some (i, j)), Some dn =>
                      length (filter (λ nw, ¬ agree i j word nw) dn)
                  | _, _ => 0
                  end)
          (neighbors cw var)).
Proof. apply count_eliminated_values_Ok. Qed.

(** ** Solutions and the search *)

Lemma submseteq_NoDup {A} (l k : list A) : l ⊆+ k → NoDup k → NoDup l.
Proof.
  intros [k' Hk']%submseteq_Permutation Hnd. rewrite Hk' in Hnd.
  by apply NoDup_app in Hnd as [? _].
Qed.

Lemma NoDup_keys_NoDup (a : Assignment) : NoDup (keys a) → NoDup a.
Proof. apply NoDup_fmap_1. Qed.

(** A part of a solution satisfies the checker. *)
Lemma satisfies_checker_sub cw (a s : Assignment) :
  NoDup (keys a) → a ⊆ s → satisfies_checker cw s → satisfies_checker cw a.
Proof.
  intros Hnd Hsub (Hvals & Hlen & Hagree). split; [|split].
  - apply (submseteq_NoDup _ (values s)); [|done].
    apply fmap_submseteq, NoDup_submseteq; [by apply NoDup_keys_NoDup|done].
  - unfold lengths_match in *. rewrite Forall_forall in *. auto.
  - intros v1 w1 v2 w2 i j H1 H2. apply Hagree; by apply Hsub.
Qed.

Section complete.
Context (cw : Crossword) (rec : World → Res (option Assignment * World)).
Context (good : string → Prop).

Lemma try_values_total var vals w :
  restores rec →
  var ∉ keys (assignment w) →
  (∀ value, ∃ b, consistent cw (assignment w ++ [(var, value)]) = Ok b) →
  (∀ value, good value →
     consistent cw (assignment w ++ [(var, value)]) = Ok true) →
  (∀ value w1, domains w1 = domains w →
     assignment w1 = assignment w ++ [(var, value)] →
     ∃ r w', rec w1 = Ok (r, w') ∧ (good value → r ≠ None)) →
  ∃ r w', try_values cw rec var vals w = Ok (r, w') ∧
          ((∃ value, value ∈ vals ∧ good value) → r ≠ None).
Proof.
  intros Hres. revert w.
  induction vals as [|value vals IH]; intros w Hvar Hcons Hgood Hrec; simpl.
  - eexists _, _. split; [done|]. by intros (? & ?%elem_of_nil & _).
  - assert (∃ r1 w1, try_value cw rec var value w = Ok (r1, w1) ∧
                     (good value → r1 ≠ None)) as (r1 & w1 & Htry & Hr1).
    { unfold try_value. rewrite dict_set_fresh by done.
      cbn [assignment set_assignment].
      destruct (Hcons value) as [b Hb]. rewrite Hb. cbn [mbind Res_bind].
      destruct b.
      - destruct (Hrec value
                    (set_assignment w (assignment w ++ [(var, value)])))
          as (r & w' & Hr & Hg); [done..|].
        rewrite Hr. cbn [mbind Res_bind]. destruct r as [res|].
        + eexists _, _. by split.
        + pose proof (Hres _ _ _ Hr) as [_ Ha]. rewrite (Ha eq_refl).
          simpl. rewrite dict_del_fresh by done. simpl.
          eexists _, _. split; [done|]. done.
      - cbn [mbind Res_bind assignment set_assignment].
        rewrite dict_del_fresh by done. simpl. eexists _, _. split; [done|].
        intros Hg. apply Hgood in Hg. congruence. }
    rewrite Htry. cbn [mbind Res_bind]. destruct r1 as [res|].
    + eexists _, _. by split.
    + pose proof (try_value_restores _ _ _ _ _ _ _ Hres Hvar Htry) as [Hd Ha].
      specialize (Ha eq_refl).
      destruct (IH w1) as (r & w' & Hr & Hg).
      * by rewrite Ha.
      * by rewrite Ha.
      * by rewrite Ha.
      * intros value' w2 Hd2 Ha2. apply Hrec; congruence.
      * exists r, w'. split; [done|].
        intros (value' & [->|Hin]%elem_of_cons & Hgv); [|eauto].
        by destruct (Hr1 Hgv).
Qed.
End complete.

(** On a well-formed puzzle the search raises nothing, and it returns a
    dictionary whenever the one it starts from is part of a solution made of
    candidates. *)
Lemma backtrack_rec_total cw fuel w :
  NoDup (variables cw) → offsets_in_range cw → overlaps_total cw →
  node_consistent (domains w) → domains_cover cw (domains w) →
  well_keyed cw (assignment w) →
  length (unassigned_vars cw (assignment w)) < fuel →
  ∃ r w', backtrack_rec cw fuel w = Ok (r, w') ∧
    ((∃ s, solution cw s ∧ in_domains (domains w) s ∧ assignment w ⊆ s) →
     r ≠ None).
Proof.
  intros Hnd Hin Htot. revert w.
  induction fuel as [|fuel IH]; intros w Hnc Hcover Hk Hfuel; [lia|]. simpl.
  destruct (assignment_complete cw (assignment w)) eqn:Hc.
  { eexists _, _. by split. }
  destruct (incomplete_unassigned cw _ Hnd Hk Hc) as (u & Hu & Hna).
  destruct (select_unassigned_variable_min cw (domains w) (assignment w))
    as (var & Hsel & _).
  { unfold domains_cover in Hcover. rewrite Forall_forall in Hcover.
    apply Forall_forall. intros v [_ Hv]%elem_of_unassigned_vars. auto. }
  { intros Hnil. assert (u ∈ unassigned_vars cw (assignment w)) as Hin'
      by by apply elem_of_unassigned_vars.
    rewrite Hnil in Hin'. by apply elem_of_nil in Hin'. }
  rewrite Hsel. cbn [mbind Res_bind].
  pose proof (select_unassigned_variable_elem _ _ _ _ Hsel) as Hvar.
  pose proof Hvar as [Hfresh Hvar']%elem_of_unassigned_vars.
  destruct (order_domain_values_Ok cw (domains w) var (assignment w))
    as [vals Hvals]; [done..|].
  rewrite Hvals. cbn [mbind Res_bind].
  apply order_domain_values_inv in Hvals as (d & Hd & Hsorted).
  apply sorted_by_key_inv in Hsorted as (Hperm & _).
  destruct (try_values_total cw (backtrack_rec cw fuel)
              (λ value, ∃ s, solution cw s ∧ in_domains (domains w) s ∧
                             assignment w ++ [(var, value)] ⊆ s)
              var vals (enter_backtrack w)) as (r & w' & Hr & Hg);
    cbn [enter_backtrack domains assignment] in *.
  - apply backtrack_rec_restores.
  - done.
  - intros value.
    destruct (consistent_decides cw (assignment w ++ [(var, value)]))
      as (b & Hb & _); [done..| |by exists b].
    by apply (well_keyed_snoc cw _ var value).
  - intros value (s & [_ Hs] & _ & Hsub).
    destruct (consistent_decides cw (assignment w ++ [(var, value)]))
      as (b & Hb & Hiff); [done..|by apply (well_keyed_snoc cw _ var value)|].
    rewrite Hb. f_equal. apply Hiff.
    apply (satisfies_checker_sub cw _ s); [|done..].
    by apply (well_keyed_snoc cw _ var value).
  - intros value w1 Hd1 Ha1.
    destruct (IH w1) as (r & w' & Hr & Hg).
    + by rewrite Hd1.
    + by rewrite Hd1.
    + rewrite Ha1. by apply well_keyed_snoc.
    + rewrite Ha1.
      pose proof (unassigned_vars_snoc_length cw (assignment w) var value Hvar).
      lia.
    + exists r, w'. split; [done|]. intros (s & Hs & Hdom & Hsub).
      apply Hg. exists s. rewrite Hd1, Ha1. done.
  - exists r, w'. split; [done|]. intros (s & Hs & Hdom & Hsub). apply Hg.
    destruct Hs as [[Hnds Hcov] Hsat].
    apply Hcov, list_elem_of_fmap in Hvar' as ([v value] & -> & Hitem).
    simpl in *. exists value. split.
    + rewrite Hperm. destruct (Hdom _ _ Hitem) as (d' & Hd' & Hw).
      by assert (d' = d) as -> by congruence.
    + exists s. split; [done|]. split; [done|].
      intros item [?| ->%list_elem_of_singleton]%elem_of_app; auto.
Qed.

(** ** Solutions and propagation *)

Lemma list_to_map_const_lookup (ws : list string) (vs : list Var) (v : Var) :
  (list_to_map ((λ var, (var, ws)) <$> vs) : Domains) !! v
  = if decide (v ∈ vs) then Some ws else None.
Proof.
  induction vs as [|u vs IH].
  - rewrite fmap_nil, list_to_map_nil, lookup_empty.
    destruct (decide (v ∈ [])) as [Hv|]; [by apply elem_of_nil in Hv|done].
  - rewrite fmap_cons, list_to_map_cons.
    destruct (decide (u = v)) as [->|Hne].
    + rewrite lookup_insert_eq.
      destruct (decide (v ∈ v :: vs)) as [|Hv]; [done|].
      exfalso. apply Hv. by left.
    + rewrite lookup_insert_ne, IH by done.
      destruct (decide (v ∈ vs)) as [Hv|Hv], (decide (v ∈ u :: vs)) as [Hv'|Hv'];
        try done; exfalso.
      * apply Hv'. by right.
      * apply elem_of_cons in Hv' as [->|?]; done.
Qed.

Lemma init_domains_lookup cw v :
  init_domains cw !! v = if decide (v ∈ variables cw) then Some (words cw) else None.
Proof. apply list_to_map_const_lookup. Qed.

Lemma in_domains_init cw s :
  keys s ⊆ variables cw → Forall (λ item, item.2 ∈ words cw) s →
  in_domains (init_domains cw) s.
Proof.
  intros Hkeys Hwords v w Hitem. exists (words cw). split.
  - rewrite init_domains_lookup, decide_True; [done|].
    apply Hkeys, list_elem_of_fmap. by exists (v, w).
  - rewrite Forall_forall in Hwords. apply (Hwords _ Hitem).
Qed.

Lemma in_domains_enforce_node_consistency doms s :
  lengths_match s → in_domains doms s →
  in_domains (enforce_node_consistency doms) s.
Proof.
  intros Hlen Hdom v w Hitem. destruct (Hdom v w Hitem) as (d & Hd & Hw).
  rewrite lookup_enforce_node_consistency, Hd. eexists. split; [done|].
  apply list_elem_of_filter. split; [|done].
  unfold lengths_match in Hlen. rewrite Forall_forall in Hlen.
  apply (Hlen _ Hitem).
Qed.

(** [revise] keeps the words of a solution. *)
Lemma revise_keeps_solution cw doms x y revised doms' s :
  is_arc cw (x, y) → solution cw s → in_domains doms s →
  revise cw doms x y = Ok (revised, doms') → in_domains doms' s.
Proof.
  intros (Hx & Hy & Hxy & Hov) [[_ Hcov] (_ & _ & Hagree)] Hdom Hrev. simpl in *.
  apply has_overlap_true in Hov as [[i j] Ho].
  destruct (revise_elem _ _ _ _ _ _ _ _ Ho Hrev) as (dx & dx' & Hdx & -> & Hdx').
  intros v w Hitem. destruct (Hdom v w Hitem) as (d & Hd & Hw).
  destruct (decide (v = x)) as [->|Hne].
  - rewrite lookup_insert_eq. exists dx'. split; [done|]. apply Hdx'.
    assert (d = dx) as -> by congruence. split; [done|]. intros dy Hdy.
    apply Hcov, list_elem_of_fmap in Hy as ([y' wy] & -> & Hy). simpl in *.
    destruct (Hdom _ _ Hy) as (dy' & Hdy' & Hwy).
    assert (dy' = dy) as -> by congruence.
    apply supported_elem. exists wy. split; [done|].
    by apply (Hagree x w y' wy).
  - rewrite lookup_insert_ne by done. by exists d.
Qed.

Lemma ac3_loop_keeps_solution cw fuel doms queue b doms' s :
  Forall (is_arc cw) queue → solution cw s → in_domains doms s →
  ac3_loop cw fuel doms queue = Ok (b, doms') → in_domains doms' s.
Proof.
  intros Hq Hs. revert doms queue Hq.
  induction fuel as [|fuel IH]; intros doms queue Hq Hdom; [done|]. simpl.
  destruct queue as [|[x y] queue]; [by intros [= <- <-]|].
  apply Forall_cons in Hq as [Hxy Hq].
  intros ([revised doms1] & Hrev & Hrest)%bind_Ok.
  pose proof (revise_keeps_solution _ _ _ _ _ _ _ Hxy Hs Hdom Hrev) as Hdom1.
  destruct revised.
  - apply bind_Ok in Hrest as (dx & _ & Hrest). case_decide.
    + by injection Hrest as <- <-.
    + apply IH in Hrest; [done| |done].
      apply Forall_app. split; [done|].
      apply Forall_forall. intros arc (k & -> & Hk)%list_elem_of_fmap.
      apply list_elem_of_filter in Hk as [_ Hk].
      apply elem_of_neighbors in Hk as (? & ? & ?).
      destruct Hxy as (? & _). by repeat split.
  - by apply IH in Hrest.
Qed.

Lemma ac3_keeps_solution cw doms b doms' s :
  solution cw s → in_domains doms s →
  ac3 cw doms None = Ok (b, doms') → in_domains doms' s.
Proof.
  intros Hs Hdom. unfold ac3. intros (queue & Hq & Hloop)%bind_Ok.
  apply ac3_loop_keeps_solution with (s := s) in Hloop; [done| |done..].
  apply Forall_forall. intros arc. by apply initial_queue_default.
Qed.

Lemma arcs_from_Ok cw v1 vs :
  overlaps_total cw → v1 ∈ variables cw → vs ⊆ variables cw →
  ∃ q, arcs_from cw v1 vs = Ok q.
Proof.
  intros Htot Hv1. induction vs as [|v2 vs IH]; intros Hvs; simpl; [by eexists|].
  destruct IH as [q ->]; [intros v Hv; apply Hvs; by right|].
  case_decide as Hne.
  - destruct (Htot v1 v2) as [o Ho]; [done|apply Hvs; by left|done|].
    unfold get_overlap. rewrite Ho. simpl. by eexists.
  - simpl. by eexists.
Qed.

Lemma all_arcs_Ok cw vs :
  overlaps_total cw → vs ⊆ variables cw → ∃ q, all_arcs cw vs = Ok q.
Proof.
  intros Htot. induction vs as [|v1 vs IH]; intros Hvs; simpl; [by eexists|].
  destruct (arcs_from_Ok cw v1 (variables cw)) as [row ->];
    [done|apply Hvs; by left|done|].
  destruct IH as [q ->]; [intros v Hv; apply Hvs; by right|].
  simpl. by eexists.
Qed.

Lemma ac3_default_Ok cw doms :
  offsets_in_range cw → overlaps_total cw →
  node_consistent doms → domains_cover cw doms →
  ∃ b doms', ac3 cw doms None = Ok (b, doms').
Proof.
  intros Hin Htot Hnc Hcover. unfold ac3.
  destruct (all_arcs_Ok cw (variables cw)) as [queue Hq]; [done..|].
  cbn [initial_queue]. rewrite Hq. cbn [mbind Res_bind].
  apply ac3_loop_Ok; [done..| |unfold ac3_fuel; lia].
  apply Forall_forall. intros arc. by apply (initial_queue_default cw queue).
Qed.

(** [solve] on a well-formed puzzle: it raises nothing, and it finds an
    assignment whenever the candidates hold a solution. *)
Lemma solve_total_complete cw doms :
  NoDup (variables cw) → offsets_in_range cw → overlaps_total cw →
  domains_cover cw doms →
  ∃ r w, solve cw doms = Ok (r, w) ∧
    ((∃ s, solution cw s ∧ in_domains doms s) → r ≠ None).
Proof.
  intros Hnd Hin Htot Hcover. unfold solve.
  pose proof (enforce_node_consistency_node_consistent doms) as Hnc.
  assert (domains_cover cw (enforce_node_consistency doms)) as Hcover1.
  { eapply narrowed_cover; [apply enforce_node_consistency_narrowed|done]. }
  destruct (ac3_default_Ok cw _ Hin Htot Hnc Hcover1) as (b & doms' & Hac3).
  rewrite Hac3. cbn [mbind Res_bind].
  pose proof (ac3_narrowed _ _ _ _ _ Hac3) as Hn.
  destruct (backtrack_rec_total cw
              (S (length (unassigned_vars cw []))) (mkWorld doms' [] 0))
    as (r & w & Hr & Hg); simpl; [done..| | | |lia|].
  - by eapply narrowed_node_consistent.
  - by eapply narrowed_cover.
  - apply well_keyed_nil.
  - exists r, w. split; [done|]. intros (s & Hs & Hdom). apply Hg.
    exists s. split; [done|]. split; [|by intros ? ?%elem_of_nil].
    eapply ac3_keeps_solution; [done| |done].
    apply in_domains_enforce_node_consistency; [|done]. by destruct Hs as [_ (_ & ? & _)].
Qed.

(** ** What the search returns *)

Lemma in_domains_snoc doms a var value d :
  in_domains doms a → doms !! var = Some d → value ∈ d →
  in_domains doms (a ++ [(var, value)]).
Proof.
  intros Ha Hd Hv v w [?|[= -> ->]%list_elem_of_singleton]%elem_of_app; eauto.
Qed.

Section extension.
Context (cw : Crossword) (rec : World → Res (option Assignment * World)).

Lemma try_values_extension var vals w r w' d :
  restores rec → returns_extension rec →
  var ∉ keys (assignment w) →
  domains w !! var = Some d → vals ⊆ d →
  try_values cw rec var vals w = Ok (Some r, w') →
  assignment w' = r ∧ assignment w `prefix_of` r ∧
  (in_domains (domains w) (assignment w) → in_domains (domains w) r).
Proof.
  intros Hres Hrec. revert w.
  induction vals as [|value vals IH]; intros w Hvar Hd Hsub; simpl; [done|].
  intros ([r1 w1] & Htry & Hrest)%bind_Ok.
  pose proof (try_value_restores _ _ _ _ _ _ _ Hres Hvar Htry) as [Hd1 Ha].
  destruct r1 as [res|].
  - injection Hrest as <- <-.
    apply try_value_inv in Htry as (ok & Hok & Hcases); [|done].
    destruct ok; [|by destruct Hcases].
    destruct Hcases as (r1 & w2 & Hcall & Hr1).
    destruct r1 as [res'|]; [|by destruct Hr1].
    destruct Hr1 as [[= ->] ->].
    apply Hrec in Hcall as (Hfinal & Hpre & Hdom). simpl in *.
    split; [done|]. split.
    + etransitivity; [|exact Hpre]. by apply prefix_app_r.
    + intros Hin. apply Hdom. apply in_domains_snoc with d; [done..|].
      apply Hsub. by left.
  - specialize (Ha eq_refl). apply IH in Hrest.
    + by rewrite Hd1, Ha in Hrest.
    + by rewrite Ha.
    + by rewrite Hd1.
    + intros v Hv. apply Hsub. by right.
Qed.
End extension.

Lemma backtrack_rec_extension cw fuel : returns_extension (backtrack_rec cw fuel).
Proof.
  induction fuel as [|fuel IH]; intros w r w'; simpl; [done|].
  destruct (assignment_complete cw (assignment w)).
  - intros [= <- <-]. simpl. by split.
  - intros (var & Hsel & (vals & Hvals & Htry)%bind_Ok)%bind_Ok.
    apply select_unassigned_variable_elem, elem_of_unassigned_vars in Hsel as [Hvar _].
    apply order_domain_values_inv in Hvals as (d & Hd & Hsorted).
    apply sorted_by_key_inv in Hsorted as (Hperm & _).
    eapply (try_values_extension cw _ var vals (enter_backtrack w)) in Htry;
      [exact Htry|apply backtrack_rec_restores|done|done|exact Hd|].
    intros v Hv. by rewrite <- Hperm.
Qed.

Lemma in_domains_narrowed_init cw doms s :
  narrowed (init_domains cw) doms → in_domains doms s →
  Forall (λ item, item.2 ∈ words cw) s.
Proof.
  intros Hn Hdom. apply Forall_forall. intros [v w] Hitem.
  destruct (Hdom v w Hitem) as (d & Hd & Hw). specialize (Hn v).
  rewrite init_domains_lookup in Hn. case_decide; [|congruence].
  destruct Hn as (d' & Hd' & Hsub). assert (d' = d) as -> by congruence.
  by apply Hsub.
Qed.

Lemma solve_crossword_narrowed cw r w :
  solve_crossword cw = Ok (r, w) → narrowed (init_domains cw) (domains w).
Proof.
  intros (b & doms' & Hac3 & Hb)%solve_inv.
  apply backtrack_rec_restores in Hb as [-> _]. simpl.
  eapply narrowed_trans; [apply enforce_node_consistency_narrowed|].
  by apply ac3_narrowed in Hac3.
Qed.

Lemma solve_crossword_in_domains cw r w :
  solve_crossword cw = Ok (Some r, w) → in_domains (domains w) r.
Proof.
  intros Hs. pose proof Hs as (b & doms' & Hac3 & Hb)%solve_inv.
  pose proof (backtrack_rec_restores _ _ _ _ _ Hb) as [Hd _].
  apply backtrack_rec_extension in Hb as (_ & _ & Hin). rewrite Hd.
  apply Hin. by intros v w' ?%elem_of_nil.
Qed.

(** ** [letter_grid] *)

Lemma blank_grid_shape height width : grid_shape height width (blank_grid height width).
Proof.
  split; [apply length_replicate|].
  apply Forall_replicate. apply length_replicate.
Qed.

Lemma blank_grid_get height width i j :
  i < height → j < width → grid_get (blank_grid height width) i j = Some None.
Proof.
  intros Hi Hj. unfold grid_get, blank_grid.
  rewrite lookup_replicate_2 by done. simpl. by rewrite lookup_replicate_2.
Qed.

Lemma letter_cell_inj v k k' : letter_cell v k = letter_cell v k' → k = k'.
Proof.
  unfold letter_cell. destruct (var_direction v); simpl; intros [=]; lia.
Qed.

Lemma grid_set_Ok height width letters i j c :
  grid_shape height width letters → i < height → j < width →
  ∃ letters', grid_set letters i j c = Ok letters' ∧
              grid_shape height width letters'.
Proof.
  intros [Hlen Hrows] Hi Hj. unfold grid_set.
  destruct (lookup_lt_is_Some_2 letters i) as [row Hrow]; [lia|].
  rewrite Hrow. rewrite Forall_forall in Hrows.
  assert (length row = width) as Hw by (apply Hrows; by eapply list_elem_of_lookup_2).
  rewrite decide_True by lia. eexists. split; [done|]. split.
  - by rewrite length_insert.
  - apply Forall_insert; [by apply Forall_forall|]. by rewrite length_insert.
Qed.

Lemma grid_set_out height width letters i j c :
  grid_shape height width letters → ¬ (i < height ∧ j < width) →
  grid_set letters i j c = Raise IndexError.
Proof.
  intros [Hlen Hrows] Hout. unfold grid_set.
  destruct (letters !! i) as [row|] eqn:Hrow; [|done].
  rewrite Forall_forall in Hrows.
  assert (length row = width) as Hw by (apply Hrows; by eapply list_elem_of_lookup_2).
  apply lookup_lt_Some in Hrow. rewrite decide_False; [done|lia].
Qed.

Lemma grid_set_get letters i j c letters' i' j' :
  grid_set letters i j c = Ok letters' →
  grid_get letters' i' j'
  = if decide (i' = i ∧ j' = j) then Some (Some c) else grid_get letters i' j'.
Proof.
  unfold grid_set, grid_get. destruct (letters !! i) as [row|] eqn:Hrow; [|done].
  case_decide as Hj; [|done]. intros [= <-].
  destruct (decide (i' = i)) as [->|Hi].
  - rewrite list_lookup_insert_eq by by eapply lookup_lt_Some.
    rewrite Hrow. simpl. destruct (decide (j' = j)) as [->|Hj'].
    + rewrite list_lookup_insert_eq by done. by rewrite decide_True.
    + rewrite list_lookup_insert_ne by done. by rewrite decide_False by tauto.
  - rewrite list_lookup_insert_ne by done. by rewrite decide_False by tauto.
Qed.

Lemma write_word_Ok height width v word ks letters :
  grid_shape height width letters →
  Forall (λ k, k < String.length word) ks →
  Forall (λ k, (letter_cell v k).1 < height ∧ (letter_cell v k).2 < width) ks →
  ∃ letters', write_word v word ks letters = Ok letters' ∧
              grid_shape height width letters'.
Proof.
  intros Hshape Hks. revert letters Hshape.
  induction Hks as [|k ks Hk _ IH]; intros letters Hshape Hfit; cbn [write_word letter_grid_loop mbind Res_bind].
  - by exists letters.
  - apply Forall_cons in Hfit as [[Hi Hj] Hfit].
    destruct (string_get_lt _ _ Hk) as [c Hc]. unfold str_index. rewrite Hc. cbn [write_word letter_grid_loop mbind Res_bind].
    destruct (grid_set_Ok height width letters _ _ c Hshape Hi Hj)
      as (letters1 & -> & Hshape1). cbn [write_word letter_grid_loop mbind Res_bind]. by apply IH.
Qed.

Lemma write_word_out height width v word ks letters :
  grid_shape height width letters →
  Forall (λ k, k < String.length word) ks →
  ¬ Forall (λ k, (letter_cell v k).1 < height ∧ (letter_cell v k).2 < width) ks →
  write_word v word ks letters = Raise IndexError.
Proof.
  intros Hshape Hks. revert letters Hshape.
  induction Hks as [|k ks Hk _ IH]; intros letters Hshape Hfit; cbn [write_word letter_grid_loop mbind Res_bind].
  - destruct Hfit. constructor.
  - destruct (string_get_lt _ _ Hk) as [c Hc]. unfold str_index. rewrite Hc. cbn [write_word letter_grid_loop mbind Res_bind].
    destruct (decide ((letter_cell v k).1 < height ∧ (letter_cell v k).2 < width))
      as [[Hi Hj]|Hout].
    + destruct (grid_set_Ok height width letters _ _ c Hshape Hi Hj)
        as (letters1 & -> & Hshape1). cbn [write_word letter_grid_loop mbind Res_bind]. apply IH; [done|].
      intros Hrest. apply Hfit. by constructor.
    + by rewrite (grid_set_out height width).
Qed.

Lemma seq_lt_length (n : nat) : Forall (λ k, k < n) (seq 0 n).
Proof. apply Forall_forall. intros k Hk%elem_of_seq. lia. Qed.

Lemma letter_grid_loop_Ok height width items letters :
  grid_shape height width letters → fits height width items →
  ∃ letters', letter_grid_loop items letters = Ok letters' ∧
              grid_shape height width letters'.
Proof.
  intros Hshape Hfit. revert letters Hshape.
  induction Hfit as [|[v word] items Hword _ IH]; intros letters Hshape; cbn [write_word letter_grid_loop mbind Res_bind].
  - by exists letters.
  - destruct (write_word_Ok height width v word _ letters Hshape
                (seq_lt_length _) Hword) as (letters1 & -> & Hshape1).
    cbn [write_word letter_grid_loop mbind Res_bind]. by apply IH.
Qed.

Lemma letter_grid_loop_out height width items letters :
  grid_shape height width letters → ¬ fits height width items →
  letter_grid_loop items letters = Raise IndexError.
Proof.
  revert letters. induction items as [|[v word] items IH];
    intros letters Hshape Hfit; cbn [write_word letter_grid_loop mbind Res_bind].
  - destruct Hfit. constructor.
  - destruct (decide (Forall (λ k, (letter_cell v k).1 < height ∧
                                   (letter_cell v k).2 < width)
                        (seq 0 (String.length word)))) as [Hword|Hword].
    + destruct (write_word_Ok height width v word _ letters Hshape
                  (seq_lt_length _) Hword) as (letters1 & -> & Hshape1).
      cbn [write_word letter_grid_loop mbind Res_bind]. apply IH; [done|]. intros Hrest. apply Hfit. by constructor.
    + by rewrite (write_word_out height width) by (done || apply seq_lt_length).
Qed.

(** A cell keeps its content through the writing of a word whose letters on
    that cell are the content. *)
Lemma write_word_keeps v word ks letters letters' i j x :
  write_word v word ks letters = Ok letters' →
  grid_get letters i j = Some x →
  (∀ k c, k ∈ ks → letter_cell v k = (i, j) →
          String.get k word = Some c → x = Some c) →
  grid_get letters' i j = Some x.
Proof.
  revert letters. induction ks as [|k ks IH]; intros letters; cbn [write_word letter_grid_loop mbind Res_bind].
  - by intros [= <-].
  - intros (c & Hc%str_index_Ok & (letters1 & Hset & Hrest)%bind_Ok)%bind_Ok Hx Hsame.
    apply (IH letters1); [done| |].
    + rewrite (grid_set_get _ _ _ _ _ _ _ Hset). case_decide as Hij; [|done].
      destruct Hij as [-> ->]. f_equal. symmetry.
      apply (Hsame k c); [by left| |done].
      by destruct (letter_cell v k).
    + intros k' c' Hk'. apply Hsame. by right.
Qed.

Lemma write_word_written v word ks letters letters' k c :
  write_word v word ks letters = Ok letters' →
  k ∈ ks → String.get k word = Some c →
  grid_get letters' (letter_cell v k).1 (letter_cell v k).2 = Some (Some c).
Proof.
  revert letters. induction ks as [|k0 ks IH]; intros letters; cbn [write_word letter_grid_loop mbind Res_bind].
  - by intros _ ?%elem_of_nil.
  - intros (c0 & Hc0%str_index_Ok & (letters1 & Hset & Hrest)%bind_Ok)%bind_Ok Hk Hc.
    destruct (decide (k = k0)) as [->|Hne].
    + assert (c0 = c) as -> by congruence.
      apply (write_word_keeps _ _ _ _ _ _ _ _ Hrest).
      * rewrite (grid_set_get _ _ _ _ _ _ _ Hset). by rewrite decide_True.
      * intros k' c' _ Hcell Hc'. f_equal.
        assert (k' = k0) as ->; [|congruence].
        apply (letter_cell_inj v). by destruct (letter_cell v k0), (letter_cell v k').
    + apply elem_of_cons in Hk as [?|Hk]; [done|]. by apply (IH letters1).
Qed.

Lemma letter_grid_loop_keeps items letters letters' i j x :
  letter_grid_loop items letters = Ok letters' →
  grid_get letters i j = Some x →
  (∀ v w k c, (v, w) ∈ items → letter_cell v k = (i, j) →
              String.get k w = Some c → x = Some c) →
  grid_get letters' i j = Some x.
Proof.
  revert letters. induction items as [|[v word] items IH]; intros letters; cbn [write_word letter_grid_loop mbind Res_bind].
  - by intros [= <-].
  - intros (letters1 & Hword & Hrest)%bind_Ok Hx Hsame.
    apply (IH letters1); [done| |].
    + apply (write_word_keeps _ _ _ _ _ _ _ _ Hword); [done|].
      intros k c _. apply Hsame. by left.
    + intros v' w' k c Hin. apply Hsame. by right.
Qed.

Lemma letter_grid_loop_written items letters letters' v word k c :
  cells_agree items →
  letter_grid_loop items letters = Ok letters' →
  (v, word) ∈ items → String.get k word = Some c →
  grid_get letters' (letter_cell v k).1 (letter_cell v k).2 = Some (Some c).
Proof.
  revert letters. induction items as [|[v0 w0] items IH]; intros letters Hagree; cbn [write_word letter_grid_loop mbind Res_bind].
  - by intros _ ?%elem_of_nil.
  - intros (letters1 & Hword & Hrest)%bind_Ok Hin Hc.
    assert (cells_agree items) as Hagree'.
    { intros v1 w1 v2 w2 k1 k2 c1 c2 H1 H2. apply Hagree; by right. }
    destruct (decide ((v, word) ∈ items)) as [Hrest'|Hhead].
    { by apply (IH letters1). }
    apply elem_of_cons in Hin as [[= -> ->]|?]; [|done].
    apply (letter_grid_loop_keeps _ _ _ _ _ _ Hrest).
    + apply (write_word_written _ _ _ _ _ _ _ Hword); [|done].
      apply elem_of_seq. apply string_get_Some_lt in Hc. lia.
    + intros v' w' k' c' Hin' Hcell Hc'. f_equal. symmetry.
      apply (Hagree v' w' v0 w0 k' k c' c); [by right|by left| |done..].
      rewrite Hcell. by destruct (letter_cell v0 k).
Qed.

(** ** More on [revise] and [ac3] *)

Lemma revise_scan_found doms y i j dx to_remove revised :
  revise_scan doms y i j dx = Ok (to_remove, revised) →
  ∀ w, w ∈ dx → ∃ dy b, doms !! y = Some dy ∧ consistent_found w i j dy = Ok b.
Proof.
  revert to_remove revised.
  induction dx as [|word_x dx IH]; intros to_remove revised; cbn [revise_scan].
  - by intros _ w ?%elem_of_nil.
  - intros (dy & Hdy%get_domain_Ok & (found & Hfound
             & ([tr rv] & Hrec & _)%bind_Ok)%bind_Ok)%bind_Ok w.
    intros [->|Hw]%elem_of_cons; [by exists dy, found|]. by eapply IH.
Qed.

Lemma revise_scan_all_found doms y i j dx dy :
  doms !! y = Some dy →
  Forall (λ w, consistent_found w i j dy = Ok true) dx →
  revise_scan doms y i j dx = Ok ([], false).
Proof.
  intros Hdy. induction 1 as [|w dx Hw _ IH]; cbn [revise_scan]; [done|].
  unfold get_domain. rewrite Hdy. cbn [mbind Res_bind]. rewrite Hw.
  cbn [mbind Res_bind]. by rewrite IH.
Qed.

Lemma revise_twice cw doms x y revised doms' :
  x ≠ y → revise cw doms x y = Ok (revised, doms') →
  revise cw doms' x y = Ok (false, doms').
Proof.
  intros Hxy. unfold revise at 1. intros ([[i j]|] & Ho & Hrest)%bind_Ok.
  - apply bind_Ok in Hrest as (dx & Hx%get_domain_Ok & Hrest).
    apply bind_Ok in Hrest as ([to_remove rv] & Hscan & [= <- <-]).
    unfold revise. rewrite Ho. cbn [mbind Res_bind]. unfold get_domain at 1.
    rewrite lookup_insert_eq. cbn [mbind Res_bind].
    destruct (set_remove_all to_remove dx) as [|w0 dx'] eqn:Hdx'.
    { cbn [revise_scan mbind Res_bind]. by rewrite insert_insert_eq. }
    assert (w0 ∈ dx) as Hw0.
    { assert (w0 ∈ set_remove_all to_remove dx) as Hin by (rewrite Hdx'; by left).
      rewrite set_remove_all_filter in Hin.
      by apply list_elem_of_filter in Hin as [_ ?]. }
    destruct (revise_scan_found _ _ _ _ _ _ _ Hscan w0 Hw0) as (dy & _ & Hdy & _).
    rewrite <- Hdx'.
    rewrite (revise_scan_all_found _ y i j _ dy).
    + cbn [mbind Res_bind]. unfold set_remove_all at 1. simpl.
      by rewrite insert_insert_eq.
    + by rewrite lookup_insert_ne.
    + apply Forall_forall. intros w Hw. rewrite set_remove_all_filter in Hw.
      apply list_elem_of_filter in Hw as [Hnot Hw].
      destruct (revise_scan_found _ _ _ _ _ _ _ Hscan w Hw) as (dy' & b & Hdy' & Hb).
      assert (dy' = dy) as -> by congruence. rewrite Hb. f_equal.
      rewrite (consistent_found_inv _ _ _ _ _ Hb). apply bool_decide_eq_true.
      destruct (decide (supported i j dy w)) as [|Hns]; [done|].
      destruct Hnot. apply (revise_scan_elem _ _ _ _ _ _ _ Hscan). eauto.
  - injection Hrest as <- <-. unfold revise. by rewrite Ho.
Qed.

Lemma ac3_loop_nonempty cw fuel doms queue doms' :
  domains_nonempty doms →
  ac3_loop cw fuel doms queue = Ok (true, doms') → domains_nonempty doms'.
Proof.
  revert doms queue. induction fuel as [|fuel IH]; intros doms queue Hne; [done|].
  simpl. destruct queue as [|[x y] queue]; [by intros [= <-]|].
  intros ([revised doms1] & Hrev & Hrest)%bind_Ok. destruct revised.
  - apply bind_Ok in Hrest as (dx1 & Hdx1%get_domain_Ok & Hrest).
    case_decide as Hlen; [done|]. apply IH in Hrest; [done|].
    apply revise_inv in Hrev as [[? _]|(_ & dx & dx' & Hdx & -> & _)]; [done|].
    intros v d. destruct (decide (v = x)) as [->|Hvx].
    + rewrite Hdx1. intros [= <-] ->. by apply Hlen.
    + rewrite lookup_insert_ne by done. apply Hne.
  - apply revise_inv in Hrev as [[_ ->]|[? _]]; [|done]. by apply IH in Hrest.
Qed.

Lemma overlaps_total_check cw :
  Forall (λ x, Forall (λ y, x = y ∨ is_Some (overlaps cw !! (x, y)))
                 (variables cw)) (variables cw) →
  overlaps_total cw.
Proof.
  intros Hall x y Hx Hy Hne. rewrite Forall_forall in Hall.
  specialize (Hall x Hx). rewrite Forall_forall in Hall.
  by destruct (Hall y Hy).
Qed.

(** ** Properties of the rest of the solver *)

(** X3.  On a dictionary whose keys are variables of a well-formed puzzle,
    [consistent] raises nothing, and returns [True] exactly when the words
    are pairwise distinct, each has the length of its variable, and any two
    variables with a defined overlap agree at its offsets. *)
Theorem consistent_spec (cw : Crossword) (a : Assignment) :
  overlaps_total cw → offsets_in_range cw → keys a ⊆ variables cw →
  ∃ b, consistent cw a = Ok b ∧ (b = true ↔ satisfies_checker cw a).
Proof. apply consistent_decides. Qed.

(** X4.  On a well-formed puzzle (distinct variables, an overlap entry for
    every ordered pair of distinct variables, offsets within the lengths),
    [solve] on a fresh creator raises no exception: it returns an assignment
    or [None]. *)
Theorem solve_returns (cw : Crossword) :
  NoDup (variables cw) → offsets_in_range cw → overlaps_total cw →
  ∃ r w, solve_crossword cw = Ok (r, w).
Proof.
  intros Hnd Hin Htot.
  destruct (solve_total_complete cw (init_domains cw) Hnd Hin Htot)
    as (r & w & Hs & _); [apply init_domains_cover|]. by exists r, w.
Qed.

(** X5.  On a well-formed puzzle, [solve] returns an assignment exactly when
    the puzzle has a solution made of words of the word list; it returns
    [None] only when there is none. *)
Theorem solve_finds_solution (cw : Crossword) :
  NoDup (variables cw) → offsets_in_range cw → overlaps_total cw →
  ((∃ s, solution cw s ∧ Forall (λ item, item.2 ∈ words cw) s) ↔
   ∃ r w, solve_crossword cw = Ok (Some r, w)).
Proof.
  intros Hnd Hin Htot. split.
  - intros (s & Hs & Hwords).
    destruct (solve_total_complete cw (init_domains cw) Hnd Hin Htot)
      as (r & w & Hsolve & Hsome); [apply init_domains_cover|].
    destruct r as [r|]; [by exists r, w|]. destruct Hsome; [|done].
    exists s. split; [done|]. apply in_domains_init; [|done].
    destruct Hs as [[_ Hcov] _]. intros v Hv. by apply Hcov.
  - intros (r & w & Hsolve). exists r. split.
    + pose proof Hsolve as (b & doms' & _ & Hb)%solve_inv.
      apply backtrack_rec_sound in Hb as (Hk & Hc & Hcomplete);
        [|apply well_keyed_nil|apply consistent_nil].
      split; [by apply well_keyed_complete_covers|by apply consistent_true].
    + apply (in_domains_narrowed_init cw (domains w)).
      * by apply solve_crossword_narrowed in Hsolve.
      * by apply (solve_crossword_in_domains cw).
Qed.

(** X6.  Every word of an assignment that [solve] returns is a word of the
    word list, and is still a candidate of its variable in the domains that
    [solve] leaves. *)
Theorem solve_words_from_list (cw : Crossword) (r : Assignment) (w : World) :
  solve_crossword cw = Ok (Some r, w) →
  ∀ v word, (v, word) ∈ r →
    word ∈ words cw ∧ ∃ d, domains w !! v = Some d ∧ word ∈ d.
Proof.
  intros Hsolve v word Hitem.
  pose proof (solve_crossword_in_domains _ _ _ Hsolve) as Hdom.
  split; [|by apply Hdom].
  pose proof (in_domains_narrowed_init cw _ r
                (solve_crossword_narrowed _ _ _ Hsolve) Hdom) as Hall.
  rewrite Forall_forall in Hall. apply (Hall _ Hitem).
Qed.

(** X7.  When [backtrack] returns a dictionary, it is the dictionary it was
    given: the entries it had at the call are still its first entries, and
    the caller's dictionary holds the returned assignment after the call. *)
Theorem backtrack_returns_extension (cw : Crossword) (w w' : World)
    (r : Assignment) :
  backtrack cw w = Ok (Some r, w') →
  assignment w' = r ∧ assignment w `prefix_of` r ∧ domains w' = domains w.
Proof.
  intros Hb. pose proof (backtrack_rec_restores _ _ _ _ _ Hb) as [Hd _].
  apply backtrack_rec_extension in Hb as (? & ? & _). done.
Qed.

(** X8.  [ac3], with any initial arcs, only removes candidates: the
    variables that have a domain are the same before and after, and every
    domain after is a subset of the domain before. *)
Theorem ac3_only_narrows (cw : Crossword) (doms doms' : Domains)
    (arcs : option (list (Var * Var))) (b : bool) :
  ac3 cw doms arcs = Ok (b, doms') →
  ∀ v, match doms !! v with
       | Some d => ∃ d', doms' !! v = Some d' ∧ d' ⊆ d
       | None => doms' !! v = None
       end.
Proof. apply ac3_narrowed. Qed.

(** X9.  When [ac3] with the default arcs returns [True] on a puzzle with a
    symmetric overlap table, every candidate of a variable has a support in
    the domain of every variable it overlaps. *)
Theorem ac3_success_arc_consistent (cw : Crossword) (doms doms' : Domains) :
  overlaps_symmetric cw →
  ac3 cw doms None = Ok (true, doms') →
  ∀ x y i j dx dy,
    x ∈ variables cw → y ∈ variables cw → x ≠ y →
    overlaps cw !! (x, y) = Some (Some (i, j)) →
    doms' !! x = Some dx → doms' !! y = Some dy →
    ∀ wx, wx ∈ dx → ∃ wy, wy ∈ dy ∧ agree i j wx wy.
Proof.
  intros Hsym Hac3 x y i j dx dy Hx Hy Hxy Ho.
  apply (ac3_arc_consistent cw Hsym doms doms' Hac3 x y); [|done].
  repeat split; [done..|]. simpl. apply has_overlap_true. eauto.
Qed.

(** X10.  When no domain is empty before [ac3] and [ac3] returns [True],
    no domain is empty after, whatever the initial arcs. *)
Theorem ac3_keeps_nonempty (cw : Crossword) (doms doms' : Domains)
    (arcs : option (list (Var * Var))) :
  domains_nonempty doms →
  ac3 cw doms arcs = Ok (true, doms') → domains_nonempty doms'.
Proof.
  intros Hne. unfold ac3. intros (queue & _ & Hloop)%bind_Ok.
  by apply ac3_loop_nonempty in Hloop.
Qed.

(** X11.  When [ac3] with the default arcs returns [False], some variable
    of the puzzle is left with an empty domain. *)
Theorem ac3_failure_empty_domain (cw : Crossword) (doms doms' : Domains) :
  ac3 cw doms None = Ok (false, doms') →
  ∃ x, x ∈ variables cw ∧ doms' !! x = Some [].
Proof. apply ac3_default_false. Qed.

(** X12.  [ac3] is idempotent on a well-formed puzzle: run again with the
    default arcs on the domains that a successful run has left, it returns
    [True] and changes nothing. *)
Theorem ac3_idempotent (cw : Crossword) (doms doms' : Domains) :
  offsets_in_range cw → overlaps_symmetric cw →
  node_consistent doms → domains_cover cw doms →
  ac3 cw doms None = Ok (true, doms') →
  ac3 cw doms' None = Ok (true, doms').
Proof.
  intros Hin Hsym Hnc Hcover Hac3.
  pose proof (ac3_narrowed _ _ _ _ _ Hac3) as Hn.
  apply (ac3_rerun_true cw doms); [done..| | |done].
  - by eapply narrowed_node_consistent.
  - by eapply narrowed_cover.
Qed.

(** X13.  [ac3] with the default arcs never removes a word that a solution
    of the puzzle assigns: a solution made of candidates before is made of
    candidates after. *)
Theorem ac3_keeps_solutions (cw : Crossword) (doms doms' : Domains)
    (b : bool) (s : Assignment) :
  solution cw s → in_domains doms s →
  ac3 cw doms None = Ok (b, doms') → in_domains doms' s.
Proof. apply ac3_keeps_solution. Qed.

(** X14.  [revise] is idempotent: called again on the same pair of distinct
    variables, right after a call that returned, it returns [False] and
    changes nothing. *)
Theorem revise_idempotent (cw : Crossword) (doms doms' : Domains) (x y : Var)
    (revised : bool) :
  x ≠ y → revise cw doms x y = Ok (revised, doms') →
  revise cw doms' x y = Ok (false, doms').
Proof. apply revise_twice. Qed.

(** X15.  [enforce_node_consistency] is idempotent, keeps the variables
    that have a domain, and only removes candidates. *)
Theorem enforce_node_consistency_idempotent (doms : Domains) :
  enforce_node_consistency (enforce_node_consistency doms)
  = enforce_node_consistency doms ∧
  dom (enforce_node_consistency doms) = dom doms ∧
  ∀ v d', enforce_node_consistency doms !! v = Some d' →
          ∃ d, doms !! v = Some d ∧ d' ⊆ d.
Proof.
  split; [|split].
  - apply enforce_node_consistency_id, enforce_node_consistency_node_consistent.
  - apply set_eq. intros v. rewrite !elem_of_dom, lookup_enforce_node_consistency.
    by rewrite fmap_is_Some.
  - intros v d'. rewrite lookup_enforce_node_consistency.
    destruct (doms !! v) as [d|]; [|done]. intros [= <-]. exists d.
    split; [done|]. intros w Hw%list_elem_of_filter. tauto.
Qed.

(** X16.  [letter_grid] returns a grid of [height] rows of [width] cells
    when every letter of every word falls inside the grid, and raises
    [IndexError] otherwise. *)
Theorem letter_grid_bounds (height width : nat) (a : Assignment) :
  (fits height width a →
   ∃ letters, letter_grid height width a = Ok letters ∧
              length letters = height ∧
              Forall (λ row, length row = width) letters) ∧
  (¬ fits height width a → letter_grid height width a = Raise IndexError).
Proof.
  split.
  - intros Hfit. apply letter_grid_loop_Ok; [apply blank_grid_shape|done].
  - intros Hfit. apply (letter_grid_loop_out height width);
      [apply blank_grid_shape|done].
Qed.

(** X17.  When the words of the dictionary have the same letter wherever
    they share a cell, every word can be read back from the grid that
    [letter_grid] returns: the cell of its [k]-th letter holds that
    letter. *)
Theorem letter_grid_round_trip (height width : nat) (a : Assignment)
    (letters : Grid) :
  cells_agree a → letter_grid height width a = Ok letters →
  ∀ v word k c, (v, word) ∈ a → String.get k word = Some c →
    grid_get letters (letter_cell v k).1 (letter_cell v k).2 = Some (Some c).
Proof.
  intros Hagree Hgrid v word k c.
  by apply (letter_grid_loop_written a (blank_grid height width)).
Qed.

(** X18.  A cell of the grid on which no letter of any word falls holds
    [None] in the grid that [letter_grid] returns. *)
Theorem letter_grid_blank (height width : nat) (a : Assignment)
    (letters : Grid) (i j : nat) :
  letter_grid height width a = Ok letters →
  i < height → j < width → uncovered a i j →
  grid_get letters i j = Some None.
Proof.
  intros Hgrid Hi Hj Hun.
  apply (letter_grid_loop_keeps _ _ _ _ _ _ Hgrid); [by apply blank_grid_get|].
  intros v w k c Hin Hcell Hc. destruct (Hun v w k Hin); [|done].
  by apply string_get_Some_lt in Hc.
Qed.

(** ** Instances of the further properties *)

Lemma cw_cross_NoDup : NoDup (variables cw_cross).
Proof. apply (bool_decide_unpack _). vm_compute. reflexivity. Qed.

Lemma cw_cross_total : overlaps_total cw_cross.
Proof.
  apply overlaps_total_check, (bool_decide_unpack _). vm_compute. reflexivity.
Qed.

Lemma cw_cross_domains :
  node_consistent (enforce_node_consistency (init_domains cw_cross)) ∧
  domains_cover cw_cross (enforce_node_consistency (init_domains cw_cross)).
Proof.
  split; [apply enforce_node_consistency_node_consistent|].
  eapply narrowed_cover; [apply enforce_node_consistency_narrowed|].
  apply init_domains_cover.
Qed.

Lemma a_cat_car_solution : solution cw_cross a_cat_car.
Proof.
  split; [|apply consistent_true; vm_compute; reflexivity]. split.
  - apply (bool_decide_unpack _). vm_compute. reflexivity.
  - intros v. reflexivity.
Qed.

Lemma init_domains_nonempty cw : words cw ≠ [] → domains_nonempty (init_domains cw).
Proof.
  intros Hw v d. rewrite init_domains_lookup. case_decide; [|done]. congruence.
Qed.

Lemma order_domain_values_sorted_witness :
  ∃ d, doms_cat_dog_car !! v_across = Some d ∧ ["CAT"; "DOG"]%string ≡ₚ d ∧
    (∃ counts,
       Forall2 (λ word k,
                  count_eliminated_values cw_cross doms_cat_dog_car v_across [] word
                  = Ok k) ["CAT"; "DOG"]%string counts ∧
       StronglySorted le counts) ∧
    ∀ k, filter (λ word,
                   count_eliminated_values cw_cross doms_cat_dog_car v_across [] word
                   = Ok k) ["CAT"; "DOG"]%string
         = filter (λ word,
                     count_eliminated_values cw_cross doms_cat_dog_car v_across [] word
                     = Ok k) d.
Proof.
  apply (order_domain_values_sorted cw_cross doms_cat_dog_car v_across []).
  vm_compute. reflexivity.
Defined.

Lemma count_eliminated_values_spec_witness :
  ∃ n, count_eliminated_values cw_cross
         (enforce_node_consistency (init_domains cw_cross)) v_across [] "DOG"
       = Ok n.
Proof.
  eexists.
  apply (count_eliminated_values_spec cw_cross
           (enforce_node_consistency (init_domains cw_cross)) v_across [] "DOG").
  - apply cw_cross_well_formed.
  - apply cw_cross_total.
  - apply cw_cross_domains.
  - apply cw_cross_domains.
  - by left.
  - reflexivity.
Defined.

Lemma consistent_spec_witness :
  ∃ b, consistent cw_cross a_cat_car = Ok b ∧
       (b = true ↔ satisfies_checker cw_cross a_cat_car).
Proof.
  apply (consistent_spec cw_cross a_cat_car).
  - apply cw_cross_total.
  - apply cw_cross_well_formed.
  - intros v Hv. exact Hv.
Defined.

Lemma solve_returns_witness : ∃ r w, solve_crossword cw_cross = Ok (r, w).
Proof.
  apply (solve_returns cw_cross).
  - apply cw_cross_NoDup.
  - apply cw_cross_well_formed.
  - apply cw_cross_total.
Defined.

Lemma solve_finds_solution_witness :
  ∃ r w, solve_crossword cw_cross = Ok (Some r, w).
Proof.
  apply (solve_finds_solution cw_cross).
  - apply cw_cross_NoDup.
  - apply cw_cross_well_formed.
  - apply cw_cross_total.
  - exists a_cat_car. split; [apply a_cat_car_solution|].
    apply (bool_decide_unpack _). vm_compute. reflexivity.
Defined.

Lemma solve_words_from_list_witness :
  ∃ w, solve_crossword cw_cross = Ok (Some a_cat_car, w) ∧
    ("CAR"%string ∈ words cw_cross ∧
     ∃ d, domains w !! v_down = Some d ∧ "CAR"%string ∈ d).
Proof.
  eexists. split; [vm_compute; reflexivity|].
  apply (solve_words_from_list cw_cross a_cat_car).
  - vm_compute. reflexivity.
  - right. by left.
Defined.

Lemma backtrack_returns_extension_witness :
  ∃ w', backtrack cw_cross (mkWorld (init_domains cw_cross) [] 0)
        = Ok (Some a_cat_car, w') ∧
        (assignment w' = a_cat_car ∧ [] `prefix_of` a_cat_car ∧
         domains w' = init_domains cw_cross).
Proof.
  eexists. split; [vm_compute; reflexivity|].
  apply (backtrack_returns_extension cw_cross
           (mkWorld (init_domains cw_cross) [] 0)).
  vm_compute. reflexivity.
Defined.

Lemma ac3_only_narrows_witness :
  ∃ doms', ac3 cw_cross doms_cat_dog_car None = Ok (true, doms') ∧
    ∀ v, match doms_cat_dog_car !! v with
         | Some d => ∃ d', doms' !! v = Some d' ∧ d' ⊆ d
         | None => doms' !! v = None
         end.
Proof.
  eexists. split; [vm_compute; reflexivity|].
  apply (ac3_only_narrows cw_cross doms_cat_dog_car _ None true).
  vm_compute. reflexivity.
Defined.

Lemma ac3_success_arc_consistent_witness :
  ∃ doms', ac3 cw_cross doms_cat_dog_car None = Ok (true, doms') ∧
    ∀ x y i j dx dy,
      x ∈ variables cw_cross → y ∈ variables cw_cross → x ≠ y →
      overlaps cw_cross !! (x, y) = Some (Some (i, j)) →
      doms' !! x = Some dx → doms' !! y = Some dy →
      ∀ wx, wx ∈ dx → ∃ wy, wy ∈ dy ∧ agree i j wx wy.
Proof.
  eexists. split; [vm_compute; reflexivity|].
  apply (ac3_success_arc_consistent cw_cross doms_cat_dog_car).
  - apply cw_cross_well_formed.
  - vm_compute. reflexivity.
Defined.

Lemma ac3_keeps_nonempty_witness :
  ∃ doms', ac3 cw_cross (init_domains cw_cross) None = Ok (true, doms') ∧
           domains_nonempty doms'.
Proof.
  eexists. split; [vm_compute; reflexivity|].
  apply (ac3_keeps_nonempty cw_cross (init_domains cw_cross) _ None).
  - by apply init_domains_nonempty.
  - vm_compute. reflexivity.
Defined.

Lemma ac3_failure_empty_domain_witness :
  ∃ x, x ∈ variables cw_no_long_word ∧
       ∃ doms', ac3 cw_no_long_word
                  (enforce_node_consistency (init_domains cw_no_long_word)) None
                = Ok (false, doms') ∧ doms' !! x = Some [].
Proof.
  assert (∃ doms', ac3 cw_no_long_word
                     (enforce_node_consistency (init_domains cw_no_long_word)) None
                   = Ok (false, doms')) as [doms' Hac3]
    by (eexists; vm_compute; reflexivity).
  destruct (ac3_failure_empty_domain cw_no_long_word _ doms' Hac3) as (x & Hx & Hd).
  exists x. split; [done|]. by exists doms'.
Defined.

Lemma ac3_idempotent_witness :
  ∃ doms', ac3 cw_cross (enforce_node_consistency (init_domains cw_cross)) None
           = Ok (true, doms') ∧
           ac3 cw_cross doms' None = Ok (true, doms').
Proof.
  eexists. split; [vm_compute; reflexivity|].
  apply (ac3_idempotent cw_cross (enforce_node_consistency (init_domains cw_cross))).
  - apply cw_cross_well_formed.
  - apply cw_cross_well_formed.
  - apply cw_cross_domains.
  - apply cw_cross_domains.
  - vm_compute. reflexivity.
Defined.

Lemma ac3_keeps_solutions_witness :
  ∃ doms', ac3 cw_cross (init_domains cw_cross) None = Ok (true, doms') ∧
           in_domains doms' a_cat_car.
Proof.
  eexists. split; [vm_compute; reflexivity|].
  apply (ac3_keeps_solutions cw_cross (init_domains cw_cross) _ true a_cat_car).
  - apply a_cat_car_solution.
  - apply in_domains_init; [intros v Hv; exact Hv|].
    apply (bool_decide_unpack _). vm_compute. reflexivity.
  - vm_compute. reflexivity.
Defined.

Lemma revise_idempotent_witness :
  ∃ doms', revise cw_cross doms_cat_dog_car v_across v_down = Ok (true, doms') ∧
           revise cw_cross doms' v_across v_down = Ok (false, doms').
Proof.
  eexists. split; [vm_compute; reflexivity|].
  apply (revise_idempotent cw_cross doms_cat_dog_car _ v_across v_down true).
  - done.
  - vm_compute. reflexivity.
Defined.

Lemma enforce_node_consistency_idempotent_witness :
  ∃ d, init_domains cw_short_word !! v_across = Some d ∧ [] ⊆ d.
Proof.
  destruct (enforce_node_consistency_idempotent (init_domains cw_short_word))
    as (_ & _ & Hsub).
  apply (Hsub v_across []). vm_compute. reflexivity.
Defined.

Lemma letter_grid_bounds_witness :
  (∃ letters, letter_grid 3 3 a_cat_car = Ok letters ∧
              length letters = 3 ∧ Forall (λ row, length row = 3) letters) ∧
  letter_grid 2 3 a_cat_car = Raise IndexError.
Proof.
  split.
  - apply (letter_grid_bounds 3 3 a_cat_car).
    apply (bool_decide_unpack _). vm_compute. reflexivity.
  - apply (letter_grid_bounds 2 3 a_cat_car).
    intros Hfit. apply (bool_decide_pack _) in Hfit. vm_compute in Hfit. done.
Defined.

Lemma a_cat_car_cells_agree : cells_agree a_cat_car.
Proof.
  intros v1 w1 v2 w2 k1 k2 c1 c2 H1 H2 Hcell Hc1 Hc2.
  assert (k1 < 3 ∧ k2 < 3) as [Hk1 Hk2].
  { split.
    - apply string_get_Some_lt in Hc1.
      apply elem_of_cons in H1 as [[= -> ->]|H1]; [done|].
      by apply list_elem_of_singleton in H1 as [= -> ->].
    - apply string_get_Some_lt in Hc2.
      apply elem_of_cons in H2 as [[= -> ->]|H2]; [done|].
      by apply list_elem_of_singleton in H2 as [= -> ->]. }
  apply elem_of_cons in H1 as [[= -> ->]|[= -> ->]%list_elem_of_singleton];
    apply elem_of_cons in H2 as [[= -> ->]|[= -> ->]%list_elem_of_singleton];
    pose proof (f_equal fst Hcell) as Hi; pose proof (f_equal snd Hcell) as Hj;
    unfold letter_cell in Hi, Hj; simpl in Hi, Hj;
    (destruct k1 as [|[|[|k1]]]; [| | |lia]);
    (destruct k2 as [|[|[|k2]]]; [| | |lia]);
    simpl in *; try lia; congruence.
Qed.

Lemma letter_grid_round_trip_witness :
  ∃ letters c, letter_grid 3 3 a_cat_car = Ok letters ∧
    String.get 2 "CAR" = Some c ∧
    grid_get letters (letter_cell v_down 2).1 (letter_cell v_down 2).2
    = Some (Some c).
Proof.
  eexists _, _. split; [vm_compute; reflexivity|]. split; [reflexivity|].
  apply (letter_grid_round_trip 3 3 a_cat_car _ a_cat_car_cells_agree)
    with (word := "CAR"%string).
  - vm_compute. reflexivity.
  - right. by left.
  - reflexivity.
Defined.

Lemma letter_grid_blank_witness :
  ∃ letters, letter_grid 3 3 a_cat_car = Ok letters ∧
             grid_get letters 1 1 = Some None.
Proof.
  eexists. split; [vm_compute; reflexivity|].
  apply (letter_grid_blank 3 3 a_cat_car).
  - vm_compute. reflexivity.
  - lia.
  - lia.
  - intros v w k Hin Hk Hcell.
    apply elem_of_cons in Hin as [[= -> ->]|[= -> ->]%list_elem_of_singleton];
      pose proof (f_equal fst Hcell) as Hi; pose proof (f_equal snd Hcell) as Hj;
      unfold letter_cell in Hi, Hj; simpl in Hi, Hj; lia.
Defined.
